(** * Game Night Decider: the poll service

    A shallow embedding of [src/core/poll_service.py] (class [PollService]):
    the vote limiter, vote casting and toggling against the vote table, the
    category resolver and poll closing.

    Python [int] is [Z], [str] is [string], [None]-able columns are [option],
    a [dict] is a [gmap], the rows of a table are a [list] in insertion
    order.  Code that reads and writes the database session, or that draws
    random numbers, is written in a state-and-exception monad. *)

From Stdlib Require Import ZArith QArith Lia.
From stdpp Require Import base option list gmap strings pretty.

Local Open Scope Z_scope.

(** ** Results, exceptions and the monad of effectful code *)

(** The exceptions the embedded code can raise: [scalar_one_or_none] on a
    query with several rows, [random.choice] on an empty sequence, and a
    [dict] subscript with a missing key. *)
Inductive exn : Type :=
  | MultipleResultsFound
  | IndexError
  | KeyError.

Inductive result (A : Type) : Type :=
  | Ok (a : A)
  | Raise (e : exn).
Arguments Ok {A} a.
Arguments Raise {A} e.

(** A computation over a state [St] that returns an [A] or raises. *)
Definition M (St A : Type) : Type := St -> result (A * St).

Definition ret {St A} (a : A) : M St A := fun s => Ok (a, s).

Definition bind {St A B} (c : M St A) (k : A -> M St B) : M St B :=
  fun s => match c s with
           | Ok (a, s') => k a s'
           | Raise e => Raise e
           end.

Definition raise {St A} (e : exn) : M St A := fun _ => Raise e.

Notation "'let*' x := c 'in' k" := (bind c (fun x => k))
  (at level 10, x name, c at level 100, k at level 200).
Notation "'run' c 'then' k" := (bind c (fun _ => k))
  (at level 10, c at level 100, k at level 200).

(** [for x in l: acc = body(acc, x)] *)
Fixpoint for_each {St A B} (l : list A) (body : B -> A -> M St B) (acc : B)
  : M St B :=
  match l with
  | [] => ret acc
  | x :: l' => let* acc' := body acc x in for_each l' body acc'
  end.

(** ** Data model ([src/core/models.py], as the service uses it) *)

(** [VoteType]: the kind of a vote. *)
Inductive VoteType : Type := GAME | CATEGORY.

#[global] Instance VoteType_eq_dec : EqDecision VoteType.
Proof. solve_decision. Defined.

(** [VoteLimit]: the two sentinel values of the vote-limit setting.  The
    service only compares with them; their values are those of
    [src/core/models.py] and are left open here. *)
Record VoteLimit : Type := { AUTO : Z; UNLIMITED : Z }.

(** A row of the vote table.  [game_id] is set on a GAME vote and
    [category_level] on a CATEGORY vote; the other column stays [None]. *)
Record PollVote : Type := {
  poll_id : string;
  user_id : Z;
  vote_type : VoteType;
  game_id : option Z;
  category_level : option Z;
  user_name : string
}.

#[global] Instance PollVote_eq_dec : EqDecision PollVote.
Proof. solve_decision. Defined.

(** A candidate game: identifier, display name, complexity level. *)
Record Game : Type := {
  id : Z;
  name : string;
  complexity : Z
}.

(** [ResolvedVote = namedtuple("ResolvedVote", ["game_id", "user_id"])].
    The [game_id] of a GAME vote is copied as it is, so it is as nullable
    as the column. *)
Record ResolvedVote : Type := {
  rv_game_id : option Z;
  rv_user_id : Z
}.

(** [VoteResult]: the dataclass returned by [cast_vote]. *)
Record VoteResult : Type := {
  success : bool;
  message : string;
  is_removal : bool
}.

(** ** Vote limiter *)

(** [math.ceil(math.log2(n))] for a positive integer [n]: the least [k]
    with [n <= 2^k].  The source goes through a double; the embedding takes
    the exact value, which the double computation gives as long as the
    count is far below the precision of a double (counts under [2^48], far
    beyond any poll). *)
Definition ceil_log2 (n : Z) : Z := Z.log2_up n.

Section Limiter.
Context (VL : VoteLimit).

(** [PollService.calculate_effective_limit]; [None] is "unlimited". *)
Definition calculate_effective_limit (vote_limit game_count : Z) : option Z :=
  if vote_limit =? AUTO VL then
    if game_count <=? 0 then Some 3
    else Some (Z.max 3 (ceil_log2 game_count))
  else if vote_limit =? UNLIMITED VL then None
  else Some vote_limit.
End Limiter.

(** ** The database session *)

(** A row of the collection table, as [build_star_collections] reads it:
    [col_starred] is [Collection.state == GameState.STARRED]. *)
Record Collection : Type := {
  col_user_id : Z;
  col_game_id : Z;
  col_starred : bool
}.

(** A row of the session table, as [close_poll] reads it. *)
Record Session : Type := { settings_weighted : bool }.

(** The SQLAlchemy session with the tables behind it.  [postgresql] is the
    test ["postgresql" in session.bind.dialect.name]; [poll_votes] holds the
    rows of the vote table in insertion order; [sessions] maps a chat id to
    its [Session] row. *)
Record AsyncSession : Type := {
  postgresql : bool;
  poll_votes : list PollVote;
  sessions : gmap Z Session;
  collections : list Collection
}.

Definition with_poll_votes (s : AsyncSession) (rows : list PollVote)
  : AsyncSession :=
  {| postgresql := postgresql s; poll_votes := rows;
     sessions := sessions s; collections := collections s |}.

(** [select(PollVote).where(...)]: the conjunction of the conditions, and
    whether the rows are locked ([with_for_update]). *)
Record Select : Type := {
  whereclause : PollVote -> bool;
  for_update : bool
}.

Definition select_PollVote : Select :=
  {| whereclause := fun _ => true; for_update := false |}.

Definition where_ (stmt : Select) (cond : PollVote -> bool) : Select :=
  {| whereclause := fun v => whereclause stmt v && cond v;
     for_update := for_update stmt |}.

Definition with_for_update (stmt : Select) : Select :=
  {| whereclause := whereclause stmt; for_update := true |}.

(** [session.execute(stmt)]: the rows that satisfy the statement.  A row
    lock changes nothing in a sequential run. *)
Definition execute (stmt : Select) : M AsyncSession (list PollVote) :=
  fun s => Ok (List.filter (whereclause stmt) (poll_votes s), s).

(** [.scalar_one_or_none()] *)
Definition scalar_one_or_none {St} (rows : list PollVote)
  : M St (option PollVote) :=
  match rows with
  | [] => ret None
  | [v] => ret (Some v)
  | _ :: _ :: _ => raise MultipleResultsFound
  end.

(** [.scalars().all()] is the list itself. *)

(** [session.scalar(select(func.count(PollVote.id)).where(...))] *)
Definition scalar_count (stmt : Select) : M AsyncSession Z :=
  fun s => Ok (Z.of_nat (length (List.filter (whereclause stmt) (poll_votes s))), s).

(** Removes one row equal to [v], the first. *)
Fixpoint remove_row (v : PollVote) (rows : list PollVote) : list PollVote :=
  match rows with
  | [] => []
  | r :: rows' => if decide (r = v) then rows' else r :: remove_row v rows'
  end.

(** [session.delete(v)], for a row [v] that a query returned.  The rows
    carry no primary key here; where the code deletes, [v] is the only row
    of its (poll, user, kind, target), so the row equal to [v] is [v]. *)
Definition session_delete (v : PollVote) : M AsyncSession unit :=
  fun s => Ok (tt, with_poll_votes s (remove_row v (poll_votes s))).

(** [session.add(v)] *)
Definition session_add (v : PollVote) : M AsyncSession unit :=
  fun s => Ok (tt, with_poll_votes s (poll_votes s ++ [v])).

(** [session.commit()]: there is one copy of the tables, every change is
    already in it. *)
Definition commit : M AsyncSession unit := ret tt.

(** [hasattr(session.bind, "dialect") and "postgresql" in ...] *)
Definition is_postgresql : M AsyncSession bool :=
  fun s => Ok (postgresql s, s).

(** ** Vote casting and toggling *)

(** [x or 0] on an integer *)
Definition or_0 (x : Z) : Z := if x =? 0 then 0 else x.

Definition limit_message (user_vote_count effective_limit : Z) : string :=
  ("Vote limit reached (" +:+ pretty user_vote_count +:+ "/"
     +:+ pretty effective_limit +:+ "). " +:+ "Remove a vote first!")%string.

Definition category_message (target_id : Z) : string :=
  ("🎲 Voted on Category " +:+ pretty target_id +:+ "!")%string.

Section CastVote.
Context (VL : VoteLimit).

(** The existence query of [cast_vote]: the vote of this poll, user and
    kind on this target.  SQL equality with a [NULL] column is not true. *)
Definition existing_vote_stmt (poll_id0 : string) (user_id0 target_id : Z)
    (vote_type0 : VoteType) : Select :=
  let stmt := where_ select_PollVote (fun v =>
    bool_decide (poll_id v = poll_id0)
    && bool_decide (user_id v = user_id0)
    && bool_decide (vote_type v = vote_type0)) in
  match vote_type0 with
  | GAME => where_ stmt (fun v => bool_decide (game_id v = Some target_id))
  | CATEGORY =>
      where_ stmt (fun v => bool_decide (category_level v = Some target_id))
  end.

(** The count query: every vote of the user in the poll, of both kinds. *)
Definition user_votes_stmt (poll_id0 : string) (user_id0 : Z) : Select :=
  where_ select_PollVote (fun v =>
    bool_decide (poll_id v = poll_id0) && bool_decide (user_id v = user_id0)).

(** The row that [cast_vote] builds. *)
Definition new_vote (poll_id0 : string) (user_id0 target_id : Z)
    (vote_type0 : VoteType) (user_name0 : string) : PollVote :=
  {| poll_id := poll_id0; user_id := user_id0; vote_type := vote_type0;
     user_name := user_name0;
     game_id := match vote_type0 with
                | GAME => Some target_id | CATEGORY => None end;
     category_level := match vote_type0 with
                       | GAME => None | CATEGORY => Some target_id end |}.

(** [PollService.cast_vote] *)
Definition cast_vote (poll_id0 : string) (user_id0 target_id : Z)
    (vote_type0 : VoteType) (user_name0 : string)
    (vote_limit game_count : Z) : M AsyncSession VoteResult :=
  let stmt := existing_vote_stmt poll_id0 user_id0 target_id vote_type0 in
  let* pg := is_postgresql in
  let stmt := if pg then with_for_update stmt else stmt in
  let* rows := execute stmt in
  let* existing_vote := scalar_one_or_none rows in
  match existing_vote with
  | Some v =>
      run session_delete v then
      run commit then
      ret {| success := true; message := "Vote removed"; is_removal := true |}
  | None =>
      let effective_limit :=
        calculate_effective_limit VL vote_limit game_count in
      let add_vote : M AsyncSession VoteResult :=
        let vote :=
          new_vote poll_id0 user_id0 target_id vote_type0 user_name0 in
        run session_add vote then
        run commit then
        match vote_type0 with
        | CATEGORY =>
            ret {| success := true; message := category_message target_id;
                   is_removal := false |}
        | GAME =>
            ret {| success := true; message := "Vote recorded";
                   is_removal := false |}
        end in
      match effective_limit with
      | Some limit =>
          let* n := scalar_count (user_votes_stmt poll_id0 user_id0) in
          let user_vote_count := or_0 n in
          if limit <=? user_vote_count then
            ret {| success := false;
                   message := limit_message user_vote_count limit;
                   is_removal := false |}
          else add_vote
      | None => add_vote
      end
  end.

(** The user's total number of votes in the poll, of both kinds. *)
Definition vote_count (s : AsyncSession) (poll_id0 : string) (user_id0 : Z)
  : Z :=
  Z.of_nat (length (List.filter
    (whereclause (user_votes_stmt poll_id0 user_id0)) (poll_votes s))).

(** The rows that match the existence query. *)
Definition matching_votes (s : AsyncSession) (poll_id0 : string)
    (user_id0 target_id : Z) (vote_type0 : VoteType) : list PollVote :=
  List.filter
    (whereclause (existing_vote_stmt poll_id0 user_id0 target_id vote_type0))
    (poll_votes s).
End CastVote.

(** The three outcomes of [cast_vote]. *)
Definition vote_removed : VoteResult :=
  {| success := true; message := "Vote removed"; is_removal := true |}.

Definition vote_added (vote_type0 : VoteType) (target_id : Z) : VoteResult :=
  {| success := true;
     message := match vote_type0 with
                | CATEGORY => category_message target_id
                | GAME => "Vote recorded"
                end;
     is_removal := false |}.

Definition limit_reached (user_vote_count limit : Z) : VoteResult :=
  {| success := false; message := limit_message user_vote_count limit;
     is_removal := false |}.

(** The data model's invariant on the vote table: "a vote's (poll, user,
    kind, target) tuple is unique". *)
Definition vote_target (v : PollVote) : option Z :=
  match vote_type v with
  | GAME => game_id v
  | CATEGORY => category_level v
  end.

Definition vote_key (v : PollVote) : string * Z * VoteType * option Z :=
  (poll_id v, user_id v, vote_type v, vote_target v).

Definition votes_unique (rows : list PollVote) : Prop :=
  NoDup (vote_key <$> rows).

(** ** Random numbers *)

(** The generator: an unknown sequence of draws and how many were taken.
    Every behaviour of [random] is the behaviour under some sequence. *)
Record Random : Type := {
  draws : nat -> nat;
  cursor : nat
}.

(** [random._randbelow(n)] for [n > 0]: a number below [n]. *)
Definition randbelow (n : nat) : M Random nat :=
  fun r => Ok ((draws r (cursor r) `mod` n)%nat,
               {| draws := draws r; cursor := S (cursor r) |}).

(** [random.choice(seq)]: [IndexError] on an empty sequence, else
    [seq[randbelow(len(seq))]]. *)
Definition random_choice {A} (seq : list A) : M Random A :=
  match seq with
  | [] => raise IndexError
  | _ :: _ =>
      let* i := randbelow (length seq) in
      match seq !! i with
      | Some x => ret x
      | None => raise IndexError
      end
  end.

(** ** Category resolver *)

(** Modelled from the spec: [group_games_by_complexity] of
    [src/core/logic.py], which is not among the sources.  "Partition
    candidateGames into groups keyed by complexity level": each game is
    appended to the group of its level, in the order of the list. *)
Definition group_games_by_complexity (games : list Game) : gmap Z (list Game) :=
  foldl (fun groups g =>
           <[complexity g := default [] (groups !! complexity g) ++ [g]]> groups)
        ∅ games.

(** [groups.get(level, [])]; the keys of [groups] are levels, so the
    level [None] of a vote with no level is no key. *)
Definition groups_get (groups : gmap Z (list Game)) (level : option Z)
  : list Game :=
  match level with
  | Some l => default [] (groups !! l)
  | None => []
  end.

(** [d[k]] *)
Definition dict_getitem {St} `{Countable K} {V} (d : gmap K V) (k : K)
  : M St V :=
  match d !! k with
  | Some x => ret x
  | None => raise KeyError
  end.

(** Body of the first loop of [resolve_category_votes]. *)
Definition choose_resolution (groups : gmap Z (list Game))
    (category_resolutions : gmap (option Z) Game) (v : PollVote)
  : M Random (gmap (option Z) Game) :=
  match vote_type v with
  | CATEGORY =>
      let level := category_level v in
      match category_resolutions !! level with
      | None =>
          let target_group := groups_get groups level in
          match target_group with
          | _ :: _ =>
              let* g := random_choice target_group in
              ret (<[level := g]> category_resolutions)
          | [] => ret category_resolutions
          end
      | Some _ => ret category_resolutions
      end
  | GAME => ret category_resolutions
  end.

(** Body of the second loop of [resolve_category_votes]. *)
Definition append_resolved (category_resolutions : gmap (option Z) Game)
    (resolved_votes : list ResolvedVote) (v : PollVote)
  : M Random (list ResolvedVote) :=
  match vote_type v with
  | CATEGORY =>
      let level := category_level v in
      match category_resolutions !! level with
      | Some _ =>
          let* g := dict_getitem category_resolutions level in
          ret (resolved_votes
                 ++ [{| rv_game_id := Some (id g); rv_user_id := user_id v |}])
      | None => ret resolved_votes
      end
  | GAME =>
      ret (resolved_votes
             ++ [{| rv_game_id := game_id v; rv_user_id := user_id v |}])
  end.

(** The first loop: the dictionary [category_resolutions]. *)
Definition resolve_categories (all_votes : list PollVote)
    (valid_games : list Game) : M Random (gmap (option Z) Game) :=
  let groups := group_games_by_complexity valid_games in
  for_each all_votes (choose_resolution groups) ∅.

(** [PollService.resolve_category_votes] *)
Definition resolve_category_votes (all_votes : list PollVote)
    (valid_games : list Game) : M Random (list ResolvedVote) :=
  let* category_resolutions := resolve_categories all_votes valid_games in
  for_each all_votes (append_resolved category_resolutions) [].

(** What one vote contributes to the result, given the dictionary. *)
Definition resolved_of (category_resolutions : gmap (option Z) Game)
    (v : PollVote) : list ResolvedVote :=
  match vote_type v with
  | CATEGORY =>
      match category_resolutions !! category_level v with
      | Some g => [{| rv_game_id := Some (id g); rv_user_id := user_id v |}]
      | None => []
      end
  | GAME => [{| rv_game_id := game_id v; rv_user_id := user_id v |}]
  end.

(** Whether a level has a game in the candidate list. *)
Definition level_has_game (valid_games : list Game) (level : option Z) : bool :=
  existsb (fun g => bool_decide (level = Some (complexity g))) valid_games.

(** ** Scoring engine *)

(** The larger of two scores. *)
Definition score_max (a b : Q) : Q := if Qle_bool a b then b else a.

(** [max(scores)], [None] on an empty list. *)
Definition max_score (scores : list Q) : option Q :=
  match scores with
  | [] => None
  | q :: scores' => Some (foldl score_max q scores')
  end.

Section Scoring.
(** Modelled from the spec: the bonus formula of weighted voting, "an
    external policy function, treated as a black box": from the raw score,
    the users who starred the game and the number of voters to the adjusted
    score and a log line. *)
Context (bonus_policy : Q -> list Z -> Z -> Q * string).

(** "raw score per game = count of resolved votes referencing it" *)
Definition raw_score (resolved_votes : list ResolvedVote) (g : Game) : Q :=
  inject_Z (Z.of_nat (length (List.filter
    (fun r => bool_decide (rv_game_id r = Some (id g))) resolved_votes))).

(** The number of distinct users among the resolved votes. *)
Definition total_voters (resolved_votes : list ResolvedVote) : Z :=
  Z.of_nat (size (list_to_set (rv_user_id <$> resolved_votes) : gset Z)).

(** The final score of a game and, for an adjusted game, its log line:
    "if weighted: for each game in the priority set, boost or adjust its
    score using the star collection; non-priority games are unaffected". *)
Definition score_game (resolved_votes : list ResolvedVote)
    (priority_ids : gset Z) (is_weighted : bool)
    (star_collections : option (gmap Z (list Z))) (g : Game)
  : Q * option string :=
  let raw := raw_score resolved_votes g in
  if is_weighted && bool_decide (id g ∈ priority_ids) then
    let starring := default [] (star_collections ≫= (.!! id g)) in
    let '(adjusted, line) :=
      bonus_policy raw starring (total_voters resolved_votes) in
    (adjusted, Some line)
  else (raw, None).

(** Modelled from the spec: [calculate_poll_winner] of
    [src/core/logic.py], which is not among the sources.  Scores every
    candidate game; "Winner(s) = every game achieving the maximum final
    score"; returns the winners' names, the score map keyed by game
    identifier and the modifier log in the order of the candidates. *)
Definition calculate_poll_winner (valid_games : list Game)
    (resolved_votes : list ResolvedVote) (priority_ids : gset Z)
    (is_weighted : bool) (star_collections : option (gmap Z (list Z)))
  : list string * gmap Z Q * list string :=
  let score g :=
    score_game resolved_votes priority_ids is_weighted star_collections g in
  let best := max_score ((fun g => fst (score g)) <$> valid_games) in
  let winners :=
    List.filter (fun g => match best with
                          | Some m => Qeq_bool (fst (score g)) m
                          | None => false
                          end) valid_games in
  (name <$> winners,
   list_to_map ((fun g => (id g, fst (score g))) <$> valid_games),
   omap (fun g => snd (score g)) valid_games).

(** ** Poll orchestrator *)

(** [close_poll] reads the database and draws random numbers. *)
Definition World : Type := AsyncSession * Random.

Definition with_session {A} (c : M AsyncSession A) : M World A :=
  fun w => match c (fst w) with
           | Ok (a, s') => Ok (a, (s', snd w))
           | Raise e => Raise e
           end.

Definition with_random {A} (c : M Random A) : M World A :=
  fun w => match c (snd w) with
           | Ok (a, r') => Ok (a, (fst w, r'))
           | Raise e => Raise e
           end.

(** [PollService.get_votes_for_poll] *)
Definition get_votes_for_poll (poll_id0 : string)
  : M AsyncSession (list PollVote) :=
  let stmt :=
    where_ select_PollVote (fun v => bool_decide (poll_id v = poll_id0)) in
  execute stmt.

(** [session.get(Session, chat_id)] *)
Definition session_get (chat_id : Z) : M AsyncSession (option Session) :=
  fun s => Ok (sessions s !! chat_id, s).

(** [select(Collection.user_id).where(Collection.game_id == g,
    Collection.state == GameState.STARRED)], executed. *)
Definition starred_users (g : Z) : M AsyncSession (list Z) :=
  fun s => Ok (col_user_id <$>
                 List.filter (fun c => bool_decide (col_game_id c = g)
                                       && col_starred c) (collections s), s).

(** [PollService.build_star_collections] *)
Definition build_star_collections (valid_games : list Game)
    (priority_ids : gset Z) : M AsyncSession (gmap Z (list Z)) :=
  for_each valid_games (fun star_collections g =>
    if bool_decide (id g ∈ priority_ids) then
      let* users := starred_users (id g) in
      ret (<[id g := users]> star_collections)
    else ret star_collections) ∅.

(** [PollService.close_poll] *)
Definition close_poll (poll_id0 : string) (chat_id : Z)
    (valid_games : list Game) (priority_ids : gset Z)
  : M World (list string * gmap Z Q * list string) :=
  let* all_votes := with_session (get_votes_for_poll poll_id0) in
  let* resolved_votes :=
    with_random (resolve_category_votes all_votes valid_games) in
  let* session_obj := with_session (session_get chat_id) in
  let is_weighted :=
    match session_obj with
    | Some row => settings_weighted row
    | None => false
    end in
  let* star_collections :=
    if is_weighted then
      let* m := with_session (build_star_collections valid_games priority_ids) in
      ret (Some m)
    else ret None in
  let '(winners, scores, modifiers_log) :=
    calculate_poll_winner valid_games resolved_votes priority_ids
      is_weighted star_collections in
  ret (winners, scores, modifiers_log).
End Scoring.

(** ** Runs of calls *)

(** The arguments of one call of [cast_vote] that vary from call to call. *)
Record CastRequest : Type := {
  req_poll : string;
  req_user : Z;
  req_target : Z;
  req_kind : VoteType;
  req_name : string
}.

Definition cast_request (VL : VoteLimit) (vote_limit game_count : Z)
    (q : CastRequest) : M AsyncSession VoteResult :=
  cast_vote VL (req_poll q) (req_user q) (req_target q) (req_kind q)
    (req_name q) vote_limit game_count.

(** One call of [cast_vote] after the other, under one limit setting and
    one candidate count; the results in the order of the calls. *)
Fixpoint cast_requests (VL : VoteLimit) (vote_limit game_count : Z)
    (qs : list CastRequest) : M AsyncSession (list VoteResult) :=
  match qs with
  | [] => ret []
  | q :: qs' =>
      let* r := cast_request VL vote_limit game_count q in
      let* rs := cast_requests VL vote_limit game_count qs' in
      ret (r :: rs)
  end.

(** ** Readings of the session used in the statements *)

(** The rows of a poll, as [get_votes_for_poll] selects them. *)
Definition votes_of_poll (s : AsyncSession) (poll_id0 : string)
  : list PollVote :=
  List.filter (fun v => bool_decide (poll_id v = poll_id0)) (poll_votes s).

(** [is_weighted] as [close_poll] computes it from the chat's row. *)
Definition weighted_for (s : AsyncSession) (chat_id : Z) : bool :=
  match sessions s !! chat_id with
  | Some row => settings_weighted row
  | None => false
  end.

(** The users whose collection has the game starred, in table order. *)
Definition starred_by (s : AsyncSession) (g : Z) : list Z :=
  col_user_id <$>
    List.filter (fun c => bool_decide (col_game_id c = g) && col_starred c)
      (collections s).

(** The map from each candidate game of the priority set to the users who
    starred it. *)
Definition star_map (s : AsyncSession) (valid_games : list Game)
    (priority_ids : gset Z) : gmap Z (list Z) :=
  foldl (fun m g => if bool_decide (id g ∈ priority_ids)
                    then <[id g := starred_by s (id g)]> m else m)
        ∅ valid_games.

Definition with_sessions (s : AsyncSession) (rows : gmap Z Session)
  : AsyncSession :=
  {| postgresql := postgresql s; poll_votes := poll_votes s;
     sessions := rows; collections := collections s |}.

(** The resolved vote of a GAME vote. *)
Definition pass_through (v : PollVote) : ResolvedVote :=
  {| rv_game_id := game_id v; rv_user_id := user_id v |}.

(** Whether a vote yields a resolved vote: a GAME vote always, a CATEGORY
    vote when its level has a candidate game. *)
Definition resolves (valid_games : list Game) (v : PollVote) : bool :=
  match vote_type v with
  | GAME => true
  | CATEGORY => level_has_game valid_games (category_level v)
  end.

(** ** Concrete polls used by the examples *)

Definition demo_limits : VoteLimit := {| AUTO := -1; UNLIMITED := -2 |}.

Definition mkvote (u : Z) (t : VoteType) (target : Z) : PollVote :=
  {| poll_id := "poll"; user_id := u; vote_type := t; user_name := "user";
     game_id := match t with GAME => Some target | CATEGORY => None end;
     category_level := match t with GAME => None | CATEGORY => Some target end |}.

Definition mkrequest (u : Z) (t : VoteType) (target : Z) : CastRequest :=
  {| req_poll := "poll"; req_user := u; req_target := target; req_kind := t;
     req_name := "user" |}.

Definition catan : Game := {| id := 1; name := "Catan"; complexity := 1 |}.
Definition wingspan : Game := {| id := 2; name := "Wingspan"; complexity := 1 |}.
Definition gloomhaven : Game :=
  {| id := 3; name := "Gloomhaven"; complexity := 3 |}.

Definition empty_session : AsyncSession :=
  {| postgresql := false; poll_votes := []; sessions := ∅; collections := [] |}.

Definition session_of (rows : list PollVote) : AsyncSession :=
  with_poll_votes empty_session rows.

Definition constant_draws (n : nat) : Random :=
  {| draws := fun _ => n; cursor := 0 |}.

(** * Properties *)

(** ** Vote limiter *)




Example auto_limit_values :
  calculate_effective_limit demo_limits (-1) 0 = Some 3
  /\ calculate_effective_limit demo_limits (-1) 1 = Some 3
  /\ calculate_effective_limit demo_limits (-1) 8 = Some 3
  /\ calculate_effective_limit demo_limits (-1) 9 = Some 4
  /\ calculate_effective_limit demo_limits (-1) 16 = Some 4
  /\ calculate_effective_limit demo_limits (-1) 17 = Some 5
  /\ calculate_effective_limit demo_limits 5 17 = Some 5.
Proof. repeat split; reflexivity. Qed.

(** The AUTO limit is at least 3. *)
Lemma auto_limit_at_least_3 (VL : VoteLimit) (n : Z) :
  exists a, calculate_effective_limit VL (AUTO VL) n = Some a /\ 3 <= a.
Proof.
  unfold calculate_effective_limit. rewrite Z.eqb_refl.
  destruct (n <=? 0); eexists; (split; [reflexivity|lia]).
Qed.



(** ** Vote casting and toggling *)

Lemma or_0_id (x : Z) : or_0 x = x.
Proof. unfold or_0. destruct (Z.eqb_spec x 0); congruence. Qed.

Lemma with_poll_votes_same (s : AsyncSession) :
  with_poll_votes s (poll_votes s) = s.
Proof. by destruct s. Qed.

(** [cast_vote] by cases on the rows that match the existence query. *)
Lemma cast_vote_eq (VL : VoteLimit) (poll : string) (user target : Z)
    (kind : VoteType) (uname : string) (vote_limit game_count : Z)
    (s : AsyncSession) :
  cast_vote VL poll user target kind uname vote_limit game_count s =
  match matching_votes s poll user target kind with
  | [] =>
      let added :=
        Ok (vote_added kind target,
            with_poll_votes s
              (poll_votes s ++ [new_vote poll user target kind uname])) in
      match calculate_effective_limit VL vote_limit game_count with
      | Some limit =>
          if limit <=? vote_count s poll user
          then Ok (limit_reached (vote_count s poll user) limit, s)
          else added
      | None => added
      end
  | [v] => Ok (vote_removed, with_poll_votes s (remove_row v (poll_votes s)))
  | _ :: _ :: _ => Raise MultipleResultsFound
  end.
Proof.
  unfold cast_vote, matching_votes, vote_count, bind, is_postgresql, execute.
  assert (Hw : whereclause
      (if postgresql s
       then with_for_update (existing_vote_stmt poll user target kind)
       else existing_vote_stmt poll user target kind)
    = whereclause (existing_vote_stmt poll user target kind))
    by (by destruct (postgresql s)).
  rewrite Hw.
  destruct (List.filter _ (poll_votes s)) as [|v [|v' rest]]; simpl; try done.
  destruct (calculate_effective_limit VL vote_limit game_count) as [limit|];
    simpl.
  - rewrite or_0_id. destruct (limit <=? _); [done|]. by destruct kind.
  - by destruct kind.
Qed.

(** A row matches the existence query exactly when it has that key. *)
Lemma existing_vote_stmt_key (poll : string) (user target : Z)
    (kind : VoteType) (v : PollVote) :
  whereclause (existing_vote_stmt poll user target kind) v = true
  <-> vote_key v = (poll, user, kind, Some target).
Proof.
  unfold vote_key, vote_target.
  destruct kind; simpl; rewrite !andb_true_iff, !bool_decide_eq_true.
  - split.
    + intros [[[<- <-] Hk] Ht]. rewrite Hk. by rewrite Ht.
    + intros [= <- <- Hk Ht]. rewrite Hk in Ht. by rewrite Hk.
  - split.
    + intros [[[<- <-] Hk] Ht]. rewrite Hk. by rewrite Ht.
    + intros [= <- <- Hk Ht]. rewrite Hk in Ht. by rewrite Hk.
Qed.

Lemma new_vote_key (poll : string) (user target : Z) (kind : VoteType)
    (uname : string) :
  vote_key (new_vote poll user target kind uname)
  = (poll, user, kind, Some target).
Proof. by destruct kind. Qed.

Lemma filter_none {A} (p : A -> bool) (l : list A) :
  List.filter p l = [] <-> forall x, x ∈ l -> p x = false.
Proof.
  induction l as [|a l IH]; simpl.
  - split; [intros _ x Hx; by apply elem_of_nil in Hx | done].
  - destruct (p a) eqn:Hpa.
    + split; [done|]. intros H. specialize (H a (list_elem_of_here _ _)).
      congruence.
    + rewrite IH. split.
      * intros H x [->|Hx]%elem_of_cons; auto.
      * intros H x Hx. apply H. by apply list_elem_of_further.
Qed.

Lemma elem_of_filter_bool {A} (p : A -> bool) (l : list A) (x : A) :
  x ∈ List.filter p l <-> x ∈ l /\ p x = true.
Proof. rewrite !list_elem_of_In. apply filter_In. Qed.

(** Under the uniqueness invariant a matching row is the only one. *)
Lemma matching_votes_unique (s : AsyncSession) (poll : string)
    (user target : Z) (kind : VoteType) (v : PollVote) :
  votes_unique (poll_votes s) ->
  v ∈ matching_votes s poll user target kind ->
  matching_votes s poll user target kind = [v].
Proof.
  unfold matching_votes, votes_unique.
  set (p := whereclause (existing_vote_stmt poll user target kind)).
  assert (Hkey : forall w, p w = true -> vote_key w = (poll, user, kind, Some target))
    by (intros w; apply existing_vote_stmt_key).
  induction (poll_votes s) as [|a rows IH]; simpl.
  - intros _ Hv. by apply elem_of_nil in Hv.
  - intros [Hnotin Hnodup]%NoDup_cons Hv.
    assert (Hrest : p a = true -> List.filter p rows = []).
    { intros Hpa. apply filter_none. intros w Hw.
      destruct (p w) eqn:Hpw; [|done]. exfalso. apply Hnotin.
      rewrite (Hkey a Hpa), <- (Hkey w Hpw). by apply list_elem_of_fmap_2. }
    destruct (p a) eqn:Hpa.
    + rewrite (Hrest eq_refl) in *. by apply list_elem_of_singleton in Hv as ->.
    + by apply IH.
Qed.

Lemma remove_row_elem (v w : PollVote) (rows : list PollVote) :
  NoDup rows -> w ∈ remove_row v rows <-> w ∈ rows /\ w <> v.
Proof.
  induction rows as [|a rows IH]; simpl.
  - intros _. split; [intros H; by apply elem_of_nil in H | by intros [H _]].
  - intros [Hnotin Hnodup]%NoDup_cons. destruct (decide (a = v)) as [->|Hne].
    + rewrite elem_of_cons. split.
      * intros Hw. split; [by right | by intros ->].
      * by intros [[->|Hw] Hne].
    + rewrite !elem_of_cons, (IH Hnodup). split.
      * intros [->|[Hw Hwv]]; [by split; [left|] | by split; [right|]].
      * intros [[->|Hw] Hwv]; [by left | by right].
Qed.

Lemma remove_row_sublist (v : PollVote) (rows : list PollVote) :
  remove_row v rows `sublist_of` rows.
Proof.
  induction rows as [|a rows IH]; simpl; [done|].
  destruct (decide (a = v)); [by apply sublist_cons | by apply sublist_skip].
Qed.

Lemma remove_row_last (v : PollVote) (rows : list PollVote) :
  v ∉ rows -> remove_row v (rows ++ [v]) = rows.
Proof.
  induction rows as [|a rows IH]; simpl; intros Hnotin.
  - by rewrite decide_True.
  - apply not_elem_of_cons in Hnotin as [Hne Hnotin].
    rewrite decide_False by congruence. by rewrite IH.
Qed.

(** An inserted vote counts as one more vote of its user in its poll. *)
Lemma vote_count_add (s : AsyncSession) (poll : string) (user target : Z)
    (kind : VoteType) (uname : string) :
  vote_count
    (with_poll_votes s (poll_votes s ++ [new_vote poll user target kind uname]))
    poll user
  = vote_count s poll user + 1.
Proof.
  unfold vote_count. simpl. rewrite List.filter_app, length_app. simpl.
  rewrite !bool_decide_eq_true_2 by done. simpl. lia.
Qed.

(** The uniqueness invariant holds of the empty table and [cast_vote]
    keeps it. *)
Lemma votes_unique_nil : votes_unique [].
Proof. constructor. Qed.

Lemma cast_vote_keeps_unique (VL : VoteLimit) (poll : string)
    (user target : Z) (kind : VoteType) (uname : string)
    (vote_limit game_count : Z) (s s' : AsyncSession) (r : VoteResult) :
  votes_unique (poll_votes s) ->
  cast_vote VL poll user target kind uname vote_limit game_count s
    = Ok (r, s') ->
  votes_unique (poll_votes s').
Proof.
  intros Huniq. rewrite cast_vote_eq.
  destruct (matching_votes s poll user target kind) as [|v [|v' rest]] eqn:Hm;
    [|intros [= _ <-]|done].
  - assert (Hadd : votes_unique
        (poll_votes s ++ [new_vote poll user target kind uname])).
    { unfold votes_unique. rewrite fmap_app. apply NoDup_app.
      split; [done|]. split; [|apply NoDup_singleton].
      intros k Hk ->%list_elem_of_singleton.
      apply list_elem_of_fmap in Hk as (w & Hkw & Hw).
      rewrite new_vote_key in Hkw. symmetry in Hkw.
      apply existing_vote_stmt_key in Hkw.
      unfold matching_votes in Hm.
      pose proof (proj1 (filter_none _ _) Hm w Hw). congruence. }
    simpl. destruct (calculate_effective_limit VL vote_limit game_count);
      [destruct (_ <=? _)|]; intros [= _ <-]; done.
  - simpl. unfold votes_unique in *.
    eapply sublist_NoDup; [exact Huniq|].
    apply fmap_sublist, remove_row_sublist.
Qed.

(** C3.  When no vote matches, the effective limit is finite and the user's
    vote count in the poll (both kinds) has reached it, [cast_vote] returns
    a failed result whose message gives the count and the limit, and the
    session is the one it was given: nothing inserted, nothing deleted. *)
Theorem cast_vote_limit_reached (VL : VoteLimit) (poll : string)
    (user target : Z) (kind : VoteType) (uname : string)
    (vote_limit game_count limit : Z) (s : AsyncSession) :
  matching_votes s poll user target kind = [] ->
  calculate_effective_limit VL vote_limit game_count = Some limit ->
  limit <= vote_count s poll user ->
  cast_vote VL poll user target kind uname vote_limit game_count s
  = Ok ({| success := false;
           message := "Vote limit reached ("
                        +:+ pretty (vote_count s poll user) +:+ "/"
                        +:+ pretty limit +:+ "). Remove a vote first!";
           is_removal := false |}, s).
Proof.
  intros Hnone Hlimit Hfull. rewrite cast_vote_eq, Hnone, Hlimit.
  by destruct (Z.leb_spec limit (vote_count s poll user)); [|lia].
Qed.

Lemma cast_vote_limit_reached_witness :
  cast_vote demo_limits "poll" 1 3 GAME "user" 2 10
    (session_of [mkvote 1 GAME 1; mkvote 1 CATEGORY 1])
  = Ok ({| success := false;
           message := "Vote limit reached (2/2). Remove a vote first!";
           is_removal := false |},
        session_of [mkvote 1 GAME 1; mkvote 1 CATEGORY 1]).
Proof.
  apply (cast_vote_limit_reached demo_limits "poll" 1 3 GAME "user" 2 10 2
           (session_of [mkvote 1 GAME 1; mkvote 1 CATEGORY 1])).
  - reflexivity.
  - reflexivity.
  - vm_compute. discriminate.
Defined.

(** C4.  Under the table's uniqueness invariant, a cast that finds a
    matching vote deletes that row (and no other) and returns success with
    [is_removal = true].  And when a cast inserts, the same cast again
    removes the row and gives back the first table, and a third cast inserts
    it again with the result of the first. *)
Theorem cast_vote_toggle (VL : VoteLimit) (poll : string) (user target : Z)
    (kind : VoteType) (uname : string) (vote_limit game_count : Z)
    (s : AsyncSession) :
  let cast := cast_vote VL poll user target kind uname vote_limit game_count in
  let removed :=
    {| success := true; message := "Vote removed"; is_removal := true |} in
  (forall v,
      votes_unique (poll_votes s) ->
      v ∈ matching_votes s poll user target kind ->
      exists s',
        cast s = Ok (removed, s')
        /\ (forall w, w ∈ poll_votes s' <-> w ∈ poll_votes s /\ w <> v)
        /\ matching_votes s' poll user target kind = [])
  /\ (forall r1 s1,
        cast s = Ok (r1, s1) -> success r1 = true -> is_removal r1 = false ->
        poll_votes s1 = poll_votes s ++ [new_vote poll user target kind uname]
        /\ exists s2 s3,
             cast s1 = Ok (removed, s2)
             /\ poll_votes s2 = poll_votes s
             /\ cast s2 = Ok (r1, s3)
             /\ poll_votes s3 = poll_votes s1).
Proof.
  intros cast removed. subst cast removed. split.
  - intros v Huniq Hv.
    pose proof (matching_votes_unique _ _ _ _ _ _ Huniq Hv) as Hm.
    eexists. rewrite cast_vote_eq, Hm. split; [reflexivity|].
    assert (Hnodup : NoDup (poll_votes s)) by (by eapply NoDup_fmap_1).
    assert (Hrows : forall w,
      w ∈ remove_row v (poll_votes s) <-> w ∈ poll_votes s /\ w <> v)
      by (intros w; by apply remove_row_elem).
    split; [exact Hrows|].
    unfold matching_votes in *. simpl. apply filter_none.
    intros w [Hw Hne]%Hrows.
    destruct (whereclause _ w) eqn:Hpw; [|done]. exfalso. apply Hne.
    assert (Hin : w ∈ List.filter
      (whereclause (existing_vote_stmt poll user target kind)) (poll_votes s))
      by (by apply elem_of_filter_bool).
    rewrite Hm in Hin. by apply list_elem_of_singleton in Hin.
  - intros r1 s1. rewrite cast_vote_eq.
    destruct (matching_votes s poll user target kind) as [|v [|v' rest]] eqn:Hm;
      [|by intros [= <- <-]|done].
    set (vote := new_vote poll user target kind uname).
    set (s_added := with_poll_votes s (poll_votes s ++ [vote])).
    assert (Hvote : whereclause
      (existing_vote_stmt poll user target kind) vote = true)
      by (apply existing_vote_stmt_key, new_vote_key).
    assert (Hfresh : vote ∉ poll_votes s).
    { intros Hin. pose proof (proj1 (filter_none _ _) Hm vote Hin). congruence. }
    assert (Hm1 : matching_votes s_added poll user target kind = [vote]).
    { unfold matching_votes in *. simpl.
      rewrite List.filter_app, Hm. simpl. by rewrite Hvote. }
    assert (Hback : with_poll_votes s_added
      (remove_row vote (poll_votes s_added)) = s).
    { simpl. rewrite remove_row_last by done. by destruct s. }
    intros Hcast Hsuccess Hnot_removal.
    assert (Hs1 : Ok (r1, s1) = cast_vote VL poll user target kind uname
                                  vote_limit game_count s).
    { rewrite cast_vote_eq, Hm. done. }
    assert (s1 = s_added) as ->.
    { simpl in Hcast.
      destruct (calculate_effective_limit VL vote_limit game_count);
        [destruct (_ <=? _)|]; injection Hcast as <- <-; done. }
    split; [done|]. exists s, s_added.
    rewrite cast_vote_eq, Hm1, Hback. by rewrite <- Hs1.
Qed.

Lemma cast_vote_toggle_witness :
  (exists s',
      cast_vote demo_limits "poll" 1 1 GAME "user" 3 10
        (session_of [mkvote 1 GAME 1; mkvote 2 GAME 1])
      = Ok ({| success := true; message := "Vote removed";
               is_removal := true |}, s')
      /\ (forall w, w ∈ poll_votes s'
            <-> w ∈ [mkvote 1 GAME 1; mkvote 2 GAME 1] /\ w <> mkvote 1 GAME 1)
      /\ matching_votes s' "poll" 1 1 GAME = [])
  /\ (poll_votes (session_of [mkvote 1 GAME 1])
      = poll_votes empty_session ++ [new_vote "poll" 1 1 GAME "user"]
      /\ exists s2 s3,
           cast_vote demo_limits "poll" 1 1 GAME "user" 3 10
             (session_of [mkvote 1 GAME 1])
           = Ok ({| success := true; message := "Vote removed";
                    is_removal := true |}, s2)
           /\ poll_votes s2 = poll_votes empty_session
           /\ cast_vote demo_limits "poll" 1 1 GAME "user" 3 10 s2
              = Ok (vote_added GAME 1, s3)
           /\ poll_votes s3 = poll_votes (session_of [mkvote 1 GAME 1])).
Proof.
  split.
  - apply (proj1 (cast_vote_toggle demo_limits "poll" 1 1 GAME "user" 3 10
                    (session_of [mkvote 1 GAME 1; mkvote 2 GAME 1]))).
    + unfold votes_unique. apply (bool_decide_unpack _). vm_compute. exact I.
    + apply list_elem_of_here.
  - apply (proj2 (cast_vote_toggle demo_limits "poll" 1 1 GAME "user" 3 10
                    empty_session)); reflexivity.
Defined.

(** C6.  After a cast that succeeded without being a removal, under a
    finite effective limit, the user's vote count in the poll (both kinds)
    is at most the limit. *)
Theorem cast_vote_within_limit (VL : VoteLimit) (poll : string)
    (user target : Z) (kind : VoteType) (uname : string)
    (vote_limit game_count limit : Z) (s s' : AsyncSession) (r : VoteResult) :
  cast_vote VL poll user target kind uname vote_limit game_count s
    = Ok (r, s') ->
  success r = true ->
  is_removal r = false ->
  calculate_effective_limit VL vote_limit game_count = Some limit ->
  vote_count s' poll user <= limit.
Proof.
  rewrite cast_vote_eq. intros Hcast Hsuccess Hkind Hlimit.
  destruct (matching_votes s poll user target kind) as [|v [|v' rest]];
    [|by injection Hcast as <- <-|done].
  simpl in Hcast. rewrite Hlimit in Hcast.
  destruct (Z.leb_spec limit (vote_count s poll user));
    injection Hcast as <- <-; [done|].
  rewrite vote_count_add. lia.
Qed.

Lemma cast_vote_within_limit_witness :
  vote_count (session_of [mkvote 1 GAME 1; mkvote 1 CATEGORY 2]) "poll" 1 <= 2.
Proof.
  apply (cast_vote_within_limit demo_limits "poll" 1 2 CATEGORY "user" 2 10 2
           (session_of [mkvote 1 GAME 1])
           (session_of [mkvote 1 GAME 1; mkvote 1 CATEGORY 2])
           (vote_added CATEGORY 2)); reflexivity.
Defined.



(** ** Category resolver *)

(** The group of a level holds the candidate games of that level, in the
    order of the candidate list. *)
Lemma group_games_by_complexity_lookup (games : list Game) (l : Z) :
  default [] (group_games_by_complexity games !! l)
  = List.filter (fun g => bool_decide (complexity g = l)) games.
Proof.
  unfold group_games_by_complexity.
  assert (Hgen : forall groups : gmap Z (list Game),
    default [] (foldl (fun groups g =>
        <[complexity g := default [] (groups !! complexity g) ++ [g]]> groups)
      groups games !! l)
    = default [] (groups !! l)
      ++ List.filter (fun g => bool_decide (complexity g = l)) games).
  { induction games as [|g games IH]; intros groups; simpl.
    - by rewrite app_nil_r.
    - rewrite IH. destruct (decide (complexity g = l)) as [<-|Hne].
      + rewrite lookup_insert_eq, bool_decide_eq_true_2 by done. simpl.
        by rewrite <- app_assoc.
      + rewrite lookup_insert_ne, bool_decide_eq_false_2 by done. done. }
  rewrite Hgen. by rewrite lookup_empty.
Qed.

Lemma groups_get_elem (games : list Game) (level : option Z) (g : Game) :
  g ∈ groups_get (group_games_by_complexity games) level
  <-> g ∈ games /\ level = Some (complexity g).
Proof.
  unfold groups_get. destruct level as [l|].
  - rewrite group_games_by_complexity_lookup, elem_of_filter_bool,
      bool_decide_eq_true. split; intros [Hg Hl]; (split; [done|congruence]).
  - split; [intros H; by apply elem_of_nil in H | by intros [_ ?]].
Qed.

Lemma groups_get_nonempty (games : list Game) (level : option Z) :
  groups_get (group_games_by_complexity games) level <> []
  <-> level_has_game games level = true.
Proof.
  unfold level_has_game. rewrite existsb_exists. split.
  - intros Hne.
    destruct (groups_get (group_games_by_complexity games) level)
      as [|g rest] eqn:Hgroup; [done|].
    assert (Hg : g ∈ groups_get (group_games_by_complexity games) level)
      by (rewrite Hgroup; apply list_elem_of_here).
    apply groups_get_elem in Hg as [Hg Hl]. exists g.
    by rewrite <- list_elem_of_In, bool_decide_eq_true.
  - intros (g & Hg & Hl) Hnil.
    rewrite <- list_elem_of_In in Hg. rewrite bool_decide_eq_true in Hl.
    assert (Hin : g ∈ groups_get (group_games_by_complexity games) level)
      by (by apply groups_get_elem).
    rewrite Hnil in Hin. by apply elem_of_nil in Hin.
Qed.

(** [random.choice] of a non-empty sequence returns one of its elements
    and takes one draw. *)
Lemma random_choice_nonempty {A} (seq : list A) (r : Random) :
  seq <> [] ->
  exists x, x ∈ seq
    /\ random_choice seq r
       = Ok (x, {| draws := draws r; cursor := S (cursor r) |}).
Proof.
  intros Hne. destruct seq as [|a seq]; [done|].
  unfold random_choice, bind, randbelow.
  set (i := (draws r (cursor r) `mod` length (a :: seq))%nat).
  assert (Hi : (i < length (a :: seq))%nat)
    by (apply Nat.mod_upper_bound; simpl; lia).
  apply lookup_lt_is_Some in Hi as [x Hx]. exists x. rewrite Hx.
  split; [by eapply list_elem_of_lookup_2 | done].
Qed.

(** What the first loop keeps true of the dictionary: it only grows, a new
    entry is a game drawn from the group of its level, a CATEGORY vote whose
    group is not empty has an entry, and each new entry costs one draw. *)
Lemma resolve_loop (groups : gmap Z (list Game)) (votes : list PollVote)
    (cr : gmap (option Z) Game) (r : Random) :
  exists cr' r',
    for_each votes (choose_resolution groups) cr r = Ok (cr', r')
    /\ cr ⊆ cr'
    /\ (forall level g, cr' !! level = Some g ->
          cr !! level = Some g \/ g ∈ groups_get groups level)
    /\ (forall v, v ∈ votes -> vote_type v = CATEGORY ->
          groups_get groups (category_level v) <> [] ->
          is_Some (cr' !! category_level v))
    /\ draws r' = draws r
    /\ (cursor r' + size cr = cursor r + size cr')%nat.
Proof.
  revert cr r. induction votes as [|v votes IH]; intros cr r; simpl.
  - exists cr, r. repeat split; try done.
    + by left.
    + intros v Hv. by apply elem_of_nil in Hv.
  - assert (Hstep : exists cr1 r1,
      choose_resolution groups cr v r = Ok (cr1, r1)
      /\ cr ⊆ cr1
      /\ (forall level g, cr1 !! level = Some g ->
            cr !! level = Some g \/ g ∈ groups_get groups level)
      /\ (vote_type v = CATEGORY ->
            groups_get groups (category_level v) <> [] ->
            is_Some (cr1 !! category_level v))
      /\ draws r1 = draws r
      /\ (cursor r1 + size cr = cursor r + size cr1)%nat).
    { unfold choose_resolution. destruct (vote_type v) eqn:Hkind.
      - exists cr, r. repeat split; try done. by left.
      - destruct (cr !! category_level v) as [g0|] eqn:Hcr.
        + exists cr, r. repeat split; try done. by left.
        + destruct (groups_get groups (category_level v)) as [|g1 rest]
            eqn:Hgroup.
          * exists cr, r. repeat split; try done. by left.
          * destruct (random_choice_nonempty (g1 :: rest) r) as (g & Hg & Hch);
              [done|].
            exists (<[category_level v := g]> cr),
              {| draws := draws r; cursor := S (cursor r) |}.
            unfold bind. rewrite Hch. simpl. repeat split.
            -- by apply insert_subseteq.
            -- intros level g'.
               destruct (decide (category_level v = level)) as [<-|Hne].
               ++ rewrite lookup_insert_eq. intros [= <-]. right.
                  by rewrite Hgroup.
               ++ rewrite lookup_insert_ne by done. by left.
            -- intros _ _. rewrite lookup_insert_eq. by eexists.
            -- rewrite map_size_insert_None by done. lia. }
    destruct Hstep as (cr1 & r1 & Hrun1 & Hsub1 & Hfrom1 & Hhas1 & Hd1 & Hc1).
    destruct (IH cr1 r1) as (cr' & r' & Hrun & Hsub & Hfrom & Hhas & Hd & Hc).
    exists cr', r'. unfold bind. rewrite Hrun1. repeat split.
    + done.
    + by etrans.
    + intros level g Hg. destruct (Hfrom level g Hg) as [H1|H1]; [|by right].
      by apply Hfrom1.
    + intros w [->|Hw]%elem_of_cons Hkind Hgroup.
      * destruct (Hhas1 Hkind Hgroup) as [g Hg]. exists g.
        by eapply lookup_weaken.
      * by apply Hhas.
    + congruence.
    + lia.
Qed.

(** The second loop appends each vote's contribution and draws nothing. *)
Lemma append_loop (cr : gmap (option Z) Game) (votes : list PollVote)
    (acc : list ResolvedVote) (r : Random) :
  for_each votes (append_resolved cr) acc r
  = Ok (acc ++ flat_map (resolved_of cr) votes, r).
Proof.
  revert acc. induction votes as [|v votes IH]; intros acc; simpl.
  - by rewrite app_nil_r.
  - assert (Hstep : append_resolved cr acc v r
                    = Ok (acc ++ resolved_of cr v, r)).
    { unfold append_resolved, resolved_of, dict_getitem, bind.
      destruct (vote_type v); [done|].
      destruct (cr !! category_level v); [done|]. by rewrite app_nil_r. }
    unfold bind. rewrite Hstep, IH. by rewrite <- app_assoc.
Qed.

(** [resolve_category_votes] never raises.  Its result is the votes'
    contributions under one dictionary, whose entries are candidate games
    of their level, present for exactly the levels that have a candidate
    game (among the levels voted for), each drawn once. *)
Lemma resolve_category_votes_spec (votes : list PollVote)
    (games : list Game) (r : Random) :
  exists cr r',
    resolve_categories votes games r = Ok (cr, r')
    /\ resolve_category_votes votes games r
       = Ok (flat_map (resolved_of cr) votes, r')
    /\ (forall level g, cr !! level = Some g ->
          g ∈ games /\ level = Some (complexity g))
    /\ (forall v, v ∈ votes -> vote_type v = CATEGORY ->
          level_has_game games (category_level v) = true ->
          is_Some (cr !! category_level v))
    /\ draws r' = draws r
    /\ cursor r' = (cursor r + size cr)%nat.
Proof.
  destruct (resolve_loop (group_games_by_complexity games) votes ∅ r)
    as (cr & r' & Hrun & _ & Hfrom & Hhas & Hd & Hc).
  exists cr, r'. unfold resolve_category_votes, resolve_categories, bind.
  rewrite Hrun, append_loop. repeat split; try done.
  - destruct (Hfrom level g H) as [Hempty|Hg]; [by rewrite lookup_empty in Hempty|].
    by apply groups_get_elem in Hg as [? ?].
  - destruct (Hfrom level g H) as [Hempty|Hg]; [by rewrite lookup_empty in Hempty|].
    by apply groups_get_elem in Hg as [? ?].
  - intros v Hv Hkind Hlevel. apply Hhas; try done.
    by apply groups_get_nonempty.
  - rewrite map_size_empty in Hc. lia.
Qed.

Lemma elem_of_flat_map {A B} (f : A -> list B) (l : list A) (y : B) :
  y ∈ flat_map f l <-> exists x, x ∈ l /\ y ∈ f x.
Proof.
  rewrite list_elem_of_In, in_flat_map.
  split; intros (x & Hx & Hy); exists x;
    by rewrite ?list_elem_of_In in *.
Qed.

(** A GAME vote for a game outside the candidate list is passed through:
    the claim of C1 fails as it is stated. *)
Lemma game_vote_outside_candidates :
  ~ (forall (votes : list PollVote) (games : list Game) (r r' : Random)
            (out : list ResolvedVote),
        resolve_category_votes votes games r = Ok (out, r') ->
        forall rv, rv ∈ out ->
          exists g, g ∈ games /\ rv_game_id rv = Some (id g)).
Proof.
  intros Hclaim.
  destruct (Hclaim [mkvote 1 GAME 99] [catan] (constant_draws 0)
              (constant_draws 0)
              [{| rv_game_id := Some 99; rv_user_id := 1 |}] eq_refl
              {| rv_game_id := Some 99; rv_user_id := 1 |}
              (list_elem_of_here _ _)) as (g & Hg & Hid).
  apply list_elem_of_singleton in Hg as ->. discriminate.
Qed.

(** C1, amended.  [resolve_category_votes] returns, and every resolved vote
    that comes from a CATEGORY vote references a game of the candidate list
    (one of the vote's level); a GAME vote is passed through with its
    [game_id] as it is, without a look at the candidate list.  So every
    resolved vote references a candidate game or is the copy of a GAME
    vote. *)
Theorem resolved_votes_reference (votes : list PollVote) (games : list Game)
    (r : Random) :
  exists out r' cr,
    resolve_category_votes votes games r = Ok (out, r')
    /\ out = flat_map (resolved_of cr) votes
    /\ (forall v rv, v ∈ votes -> rv ∈ resolved_of cr v ->
          rv_user_id rv = user_id v
          /\ match vote_type v with
             | CATEGORY =>
                 exists g, g ∈ games
                   /\ category_level v = Some (complexity g)
                   /\ rv_game_id rv = Some (id g)
             | GAME => rv_game_id rv = game_id v
             end)
    /\ (forall rv, rv ∈ out ->
          (exists g, g ∈ games /\ rv_game_id rv = Some (id g))
          \/ (exists v, v ∈ votes /\ vote_type v = GAME
                /\ rv_game_id rv = game_id v /\ rv_user_id rv = user_id v)).
Proof.
  destruct (resolve_category_votes_spec votes games r)
    as (cr & r' & _ & Hrun & Hcand & _).
  exists (flat_map (resolved_of cr) votes), r', cr.
  assert (Hone : forall v rv, v ∈ votes -> rv ∈ resolved_of cr v ->
    rv_user_id rv = user_id v
    /\ match vote_type v with
       | CATEGORY =>
           exists g, g ∈ games
             /\ category_level v = Some (complexity g)
             /\ rv_game_id rv = Some (id g)
       | GAME => rv_game_id rv = game_id v
       end).
  { intros v rv _. unfold resolved_of. destruct (vote_type v).
    - by intros ->%list_elem_of_singleton.
    - destruct (cr !! category_level v) as [g|] eqn:Hcr.
      + intros ->%list_elem_of_singleton. split; [done|].
        destruct (Hcand _ _ Hcr) as [Hg Hl]. by exists g.
      + intros H. by apply elem_of_nil in H. }
  repeat split; try done.
  - by apply Hone.
  - by apply Hone.
  - intros rv (v & Hv & Hrv)%elem_of_flat_map.
    destruct (Hone v rv Hv Hrv) as [Huser Hgame].
    destruct (vote_type v) eqn:Hkind.
    + right. by exists v.
    + left. destruct Hgame as (g & Hg & _ & Hid). by exists g.
Qed.

Example resolved_votes_example :
  resolve_category_votes
    [mkvote 1 GAME 1; mkvote 2 CATEGORY 1; mkvote 3 CATEGORY 1;
     mkvote 4 CATEGORY 2]
    [catan; wingspan; gloomhaven] (constant_draws 5)
  = Ok ([{| rv_game_id := Some 1; rv_user_id := 1 |};
         {| rv_game_id := Some 2; rv_user_id := 2 |};
         {| rv_game_id := Some 2; rv_user_id := 3 |}],
        {| draws := draws (constant_draws 5); cursor := 1 |}).
Proof. reflexivity. Qed.


(** C7.  For every input [resolve_category_votes] returns (it does not
    raise).  A CATEGORY vote whose level has no candidate game contributes
    nothing, every other vote contributes exactly one resolved vote, and the
    length of the result is the number of GAME votes plus the number of
    CATEGORY votes whose level has a candidate game. *)
Theorem empty_category_votes_dropped (votes : list PollVote)
    (games : list Game) (r : Random) :
  exists out r' cr,
    resolve_category_votes votes games r = Ok (out, r')
    /\ out = flat_map (resolved_of cr) votes
    /\ (forall v, v ∈ votes ->
          length (resolved_of cr v)
          = match vote_type v with
            | GAME => 1%nat
            | CATEGORY =>
                if level_has_game games (category_level v) then 1%nat
                else 0%nat
            end)
    /\ length out
       = (length (List.filter (fun v => bool_decide (vote_type v = GAME))
                    votes)
          + length (List.filter
                      (fun v => bool_decide (vote_type v = CATEGORY)
                                && level_has_game games (category_level v))
                      votes))%nat.
Proof.
  destruct (resolve_category_votes_spec votes games r)
    as (cr & r' & _ & Hrun & Hcand & Hhas & _).
  exists (flat_map (resolved_of cr) votes), r', cr.
  assert (Hone : forall v, v ∈ votes ->
    length (resolved_of cr v)
    = match vote_type v with
      | GAME => 1%nat
      | CATEGORY =>
          if level_has_game games (category_level v) then 1%nat else 0%nat
      end).
  { intros v Hv. unfold resolved_of. destruct (vote_type v) eqn:Hkind; [done|].
    destruct (level_has_game games (category_level v)) eqn:Hlevel.
    - by destruct (Hhas v Hv Hkind Hlevel) as [g ->].
    - destruct (cr !! category_level v) as [g|] eqn:Hcr; [|done].
      destruct (Hcand _ _ Hcr) as [Hg Hl].
      assert (level_has_game games (category_level v) = true); [|congruence].
      unfold level_has_game. apply existsb_exists. exists g.
      by rewrite <- list_elem_of_In, bool_decide_eq_true. }
  repeat split; try done.
  clear Hrun Hhas. induction votes as [|v votes IH]; [done|].
  simpl. rewrite length_app, IH.
  - rewrite (Hone v) by apply list_elem_of_here.
    destruct (vote_type v); simpl; [lia|].
    destruct (level_has_game games (category_level v)); simpl; lia.
  - intros w Hw. apply Hone. by apply list_elem_of_further.
Qed.

(** ** Scoring engine and poll closing *)





Section ScoringProperties.
Context (bonus_policy : Q -> list Z -> Z -> Q * string).




End ScoringProperties.


(** Games A and B with three votes each and C with one: both A and B win. *)
Example close_poll_tie :
  match
    close_poll (fun raw _ _ => (raw, "")) "poll" 7
      [catan; wingspan; gloomhaven] ∅
      (session_of [mkvote 1 GAME 1; mkvote 2 GAME 1; mkvote 3 GAME 1;
                   mkvote 1 GAME 2; mkvote 2 GAME 2; mkvote 3 GAME 2;
                   mkvote 1 GAME 3],
       constant_draws 0)
  with
  | Ok ((winners, scores, _), _) =>
      Some (winners, scores !! 1, scores !! 2, scores !! 3)
  | Raise _ => None
  end
  = Some (["Catan"; "Wingspan"], Some 3%Q, Some 3%Q, Some 1%Q).
Proof. vm_compute. reflexivity. Qed.

(** The end-to-end example of the specification: one GAME vote for Catan
    and two CATEGORY votes for level 1, resolved here to Wingspan. *)
Example close_poll_end_to_end :
  match
    close_poll (fun raw _ _ => (raw, "")) "poll" 7
      [catan; wingspan; gloomhaven] ∅
      (session_of [mkvote 1 GAME 1; mkvote 2 CATEGORY 1; mkvote 3 CATEGORY 1],
       constant_draws 1)
  with
  | Ok ((winners, scores, _), _) =>
      Some (winners, scores !! 1, scores !! 2, scores !! 3)
  | Raise _ => None
  end
  = Some (["Wingspan"], Some 1%Q, Some 2%Q, Some 0%Q).
Proof. vm_compute. reflexivity. Qed.

(** Outside the uniqueness invariant, with two rows of the same (poll,
    user, kind, target), the existence query has two results and
    [scalar_one_or_none] raises. *)
Example cast_vote_duplicate_rows :
  cast_vote demo_limits "poll" 1 1 GAME "user" 3 10
    (session_of [mkvote 1 GAME 1; mkvote 1 GAME 1])
  = Raise MultipleResultsFound.
Proof. reflexivity. Qed.

(** * Further properties of the poll service *)

(** ** One call of [cast_vote] *)

(** The three ways [cast_vote] returns. *)
Lemma cast_vote_inv (VL : VoteLimit) (poll : string) (user target : Z)
    (kind : VoteType) (uname : string) (vote_limit game_count : Z)
    (s s' : AsyncSession) (r : VoteResult) :
  cast_vote VL poll user target kind uname vote_limit game_count s
    = Ok (r, s') ->
  (matching_votes s poll user target kind = []
   /\ r = vote_added kind target
   /\ s' = with_poll_votes s
             (poll_votes s ++ [new_vote poll user target kind uname])
   /\ forall limit,
        calculate_effective_limit VL vote_limit game_count = Some limit ->
        vote_count s poll user < limit)
  \/ (matching_votes s poll user target kind = []
      /\ exists limit,
           calculate_effective_limit VL vote_limit game_count = Some limit
           /\ limit <= vote_count s poll user
           /\ r = limit_reached (vote_count s poll user) limit /\ s' = s)
  \/ (exists v,
        matching_votes s poll user target kind = [v]
        /\ r = vote_removed
        /\ s' = with_poll_votes s (remove_row v (poll_votes s))).
Proof.
  rewrite cast_vote_eq.
  destruct (matching_votes s poll user target kind) as [|v [|v' rest]];
    [|intros [= <- <-]; right; right; by exists v|done].
  simpl. destruct (calculate_effective_limit VL vote_limit game_count)
    as [limit|].
  - destruct (Z.leb_spec limit (vote_count s poll user)); intros [= <- <-].
    + right. left. split; [done|]. by exists limit.
    + left. repeat split; try done. by intros ? [= <-].
  - intros [= <- <-]. left. by repeat split.
Qed.

Lemma filter_remove_row_false (q : PollVote -> bool) (v : PollVote)
    (rows : list PollVote) :
  q v = false -> List.filter q (remove_row v rows) = List.filter q rows.
Proof.
  intros Hq. induction rows as [|a rows IH]; simpl; [done|].
  destruct (decide (a = v)) as [->|Hne].
  - by rewrite Hq.
  - simpl. by rewrite IH.
Qed.

Lemma filter_remove_row_true (q : PollVote -> bool) (v : PollVote)
    (rows : list PollVote) :
  q v = true ->
  List.filter q (remove_row v rows) = remove_row v (List.filter q rows).
Proof.
  intros Hq. induction rows as [|a rows IH]; simpl; [done|].
  destruct (decide (a = v)) as [->|Hne].
  - rewrite Hq. simpl. by rewrite decide_True.
  - simpl. destruct (q a); simpl; [|done].
    rewrite decide_False by done. by rewrite IH.
Qed.

Lemma length_remove_row (v : PollVote) (rows : list PollVote) :
  v ∈ rows -> S (length (remove_row v rows)) = length rows.
Proof.
  induction rows as [|a rows IH]; simpl.
  - intros H. by apply elem_of_nil in H.
  - intros Hv. destruct (decide (a = v)) as [->|Hne]; [done|]. simpl.
    rewrite IH; [done|]. apply elem_of_cons in Hv as [->|Hv]; done.
Qed.

(** A row found by the existence query is in the table and is a vote of
    that user in that poll. *)
Lemma matching_vote_row (s : AsyncSession) (poll : string) (user target : Z)
    (kind : VoteType) (v : PollVote) :
  v ∈ matching_votes s poll user target kind ->
  v ∈ poll_votes s
  /\ vote_key v = (poll, user, kind, Some target)
  /\ poll_id v = poll /\ user_id v = user.
Proof.
  unfold matching_votes. intros [Hv Hp]%elem_of_filter_bool.
  apply existing_vote_stmt_key in Hp. split; [done|]. split; [done|].
  unfold vote_key in Hp. by injection Hp as -> ->.
Qed.

(** X1.  A call that returns leaves the other tables and the dialect as
    they were, and leaves every row of the vote table other than the vote
    of this (poll, user, kind, target) in place and in order: votes of
    other users, polls, kinds and targets are never touched. *)
Theorem cast_vote_frame (VL : VoteLimit) (poll : string) (user target : Z)
    (kind : VoteType) (uname : string) (vote_limit game_count : Z)
    (s s' : AsyncSession) (r : VoteResult) :
  cast_vote VL poll user target kind uname vote_limit game_count s
    = Ok (r, s') ->
  let other w :=
    negb (bool_decide (vote_key w = (poll, user, kind, Some target))) in
  postgresql s' = postgresql s
  /\ sessions s' = sessions s
  /\ collections s' = collections s
  /\ List.filter other (poll_votes s') = List.filter other (poll_votes s).
Proof.
  intros Hcast other.
  destruct (cast_vote_inv _ _ _ _ _ _ _ _ _ _ _ Hcast)
    as [(_ & _ & -> & _)|[(_ & L & _ & _ & _ & ->)|(v & Hm & _ & ->)]];
    simpl; repeat split; try done.
  - rewrite List.filter_app. simpl. unfold other at 2.
    rewrite new_vote_key, bool_decide_eq_true_2 by done. simpl.
    by rewrite app_nil_r.
  - apply filter_remove_row_false.
    assert (Hv : v ∈ matching_votes s poll user target kind)
      by (rewrite Hm; apply list_elem_of_here).
    apply matching_vote_row in Hv as (_ & Hkey & _).
    unfold other. by rewrite bool_decide_eq_true_2.
Qed.

Lemma cast_vote_frame_witness :
  List.filter
    (fun w => negb (bool_decide (vote_key w = ("poll", 1, GAME, Some 1))))
    (poll_votes (session_of [mkvote 2 GAME 1; mkvote 1 CATEGORY 1]))
  = [mkvote 2 GAME 1; mkvote 1 CATEGORY 1].
Proof.
  apply (cast_vote_frame demo_limits "poll" 1 1 GAME "user" 3 10
           (session_of [mkvote 2 GAME 1; mkvote 1 GAME 1; mkvote 1 CATEGORY 1])
           (session_of [mkvote 2 GAME 1; mkvote 1 CATEGORY 1])
           vote_removed).
  reflexivity.
Defined.

(** X2.  The effect of a call on the vote counts: the caller's count in
    the poll goes up by one on an insertion, down by one on a removal, and
    stays on a refusal; the count of any other user, or of the same user in
    another poll, stays. *)
Theorem cast_vote_counts (VL : VoteLimit) (poll : string) (user target : Z)
    (kind : VoteType) (uname : string) (vote_limit game_count : Z)
    (s s' : AsyncSession) (r : VoteResult) :
  cast_vote VL poll user target kind uname vote_limit game_count s
    = Ok (r, s') ->
  vote_count s' poll user
  = vote_count s poll user
    + (if is_removal r then -1 else if success r then 1 else 0)
  /\ forall poll' user',
       (poll', user') <> (poll, user) ->
       vote_count s' poll' user' = vote_count s poll' user'.
Proof.
  intros Hcast.
  destruct (cast_vote_inv _ _ _ _ _ _ _ _ _ _ _ Hcast)
    as [(_ & -> & -> & _)|[(_ & L & _ & _ & -> & ->)|(v & Hm & -> & ->)]].
  - split; [apply vote_count_add|].
    intros poll' user' Hne. unfold vote_count. simpl.
    rewrite List.filter_app. simpl.
    destruct (bool_decide (poll = poll')) eqn:Hp,
      (bool_decide (user = user')) eqn:Hu; simpl;
      rewrite ?app_nil_r; try done.
    apply bool_decide_eq_true in Hp, Hu. congruence.
  - split; [simpl; lia|done].
  - assert (Hv : v ∈ matching_votes s poll user target kind)
      by (rewrite Hm; apply list_elem_of_here).
    apply matching_vote_row in Hv as (Hrow & _ & Hpoll & Huser).
    split.
    + unfold vote_count. simpl. rewrite filter_remove_row_true.
      * rewrite <- (length_remove_row v (List.filter _ (poll_votes s))); [lia|].
        apply elem_of_filter_bool. split; [done|]. simpl.
        by rewrite !bool_decide_eq_true_2.
      * simpl. by rewrite !bool_decide_eq_true_2.
    + intros poll' user' Hne. unfold vote_count. simpl.
      rewrite filter_remove_row_false; [done|]. simpl.
      destruct (bool_decide (poll_id v = poll')) eqn:Hp,
        (bool_decide (user_id v = user')) eqn:Hu; try done.
      apply bool_decide_eq_true in Hp, Hu. congruence.
Qed.

Lemma cast_vote_counts_witness :
  vote_count (session_of [mkvote 2 GAME 1; mkvote 1 CATEGORY 1]) "poll" 1
  = vote_count
      (session_of [mkvote 2 GAME 1; mkvote 1 GAME 1; mkvote 1 CATEGORY 1])
      "poll" 1 + -1
  /\ forall poll' user',
       (poll', user') <> ("poll", 1) ->
       vote_count (session_of [mkvote 2 GAME 1; mkvote 1 CATEGORY 1])
         poll' user'
       = vote_count
           (session_of [mkvote 2 GAME 1; mkvote 1 GAME 1; mkvote 1 CATEGORY 1])
           poll' user'.
Proof.
  apply (cast_vote_counts demo_limits "poll" 1 1 GAME "user" 3 10
           (session_of [mkvote 2 GAME 1; mkvote 1 GAME 1; mkvote 1 CATEGORY 1])
           (session_of [mkvote 2 GAME 1; mkvote 1 CATEGORY 1])
           vote_removed).
  reflexivity.
Defined.


(** Under the uniqueness invariant [cast_vote] returns. *)
Lemma cast_vote_unique_ok (VL : VoteLimit) (poll : string) (user target : Z)
    (kind : VoteType) (uname : string) (vote_limit game_count : Z)
    (s : AsyncSession) :
  votes_unique (poll_votes s) ->
  exists r s',
    cast_vote VL poll user target kind uname vote_limit game_count s
    = Ok (r, s').
Proof.
  intros Huniq. rewrite cast_vote_eq.
  destruct (matching_votes s poll user target kind) as [|v [|v' rest]] eqn:Hm.
  - simpl. destruct (calculate_effective_limit VL vote_limit game_count);
      [destruct (_ <=? _)|]; by do 2 eexists.
  - by do 2 eexists.
  - assert (Hv : v ∈ matching_votes s poll user target kind)
      by (rewrite Hm; apply list_elem_of_here).
    pose proof (matching_votes_unique _ _ _ _ _ _ Huniq Hv). congruence.
Qed.

Lemma vote_count_app (s : AsyncSession) (w : PollVote) (poll : string)
    (user : Z) :
  vote_count (with_poll_votes s (poll_votes s ++ [w])) poll user
  = vote_count s poll user
    + (if bool_decide (poll_id w = poll) && bool_decide (user_id w = user)
       then 1 else 0).
Proof.
  unfold vote_count. simpl. rewrite List.filter_app, length_app. simpl.
  destruct (_ && _); simpl; lia.
Qed.

Lemma vote_count_remove_le (s : AsyncSession) (v : PollVote) (poll : string)
    (user : Z) :
  vote_count (with_poll_votes s (remove_row v (poll_votes s))) poll user
  <= vote_count s poll user.
Proof.
  unfold vote_count. simpl. generalize (poll_votes s). intros rows.
  induction rows as [|a rows IH]; simpl; [done|].
  destruct (decide (a = v)); simpl.
  - destruct (_ && _); simpl; lia.
  - destruct (_ && _); simpl; lia.
Qed.

(** X4.  From a table that satisfies the uniqueness invariant, any run of
    calls returns a result for each call (no call raises), and the table
    satisfies the invariant at the end. *)
Theorem cast_requests_safe (VL : VoteLimit) (vote_limit game_count : Z)
    (qs : list CastRequest) (s : AsyncSession) :
  votes_unique (poll_votes s) ->
  exists rs s',
    cast_requests VL vote_limit game_count qs s = Ok (rs, s')
    /\ length rs = length qs
    /\ votes_unique (poll_votes s').
Proof.
  revert s. induction qs as [|q qs IH]; intros s Huniq; simpl.
  - by exists [], s.
  - destruct (cast_vote_unique_ok VL (req_poll q) (req_user q) (req_target q)
                (req_kind q) (req_name q) vote_limit game_count s Huniq)
      as (r & s1 & Hcast).
    pose proof (cast_vote_keeps_unique _ _ _ _ _ _ _ _ _ _ _ Huniq Hcast)
      as Huniq1.
    destruct (IH s1 Huniq1) as (rs & s' & Hrun & Hlen & Huniq').
    exists (r :: rs), s'. unfold bind, cast_request. rewrite Hcast, Hrun.
    simpl. by rewrite Hlen.
Qed.

Lemma cast_requests_safe_witness :
  exists rs s',
    cast_requests demo_limits 3 10 [mkrequest 1 GAME 1; mkrequest 1 GAME 1]
      empty_session
    = Ok (rs, s')
    /\ length rs = length [mkrequest 1 GAME 1; mkrequest 1 GAME 1]
    /\ votes_unique (poll_votes s').
Proof.
  apply (cast_requests_safe demo_limits 3 10
           [mkrequest 1 GAME 1; mkrequest 1 GAME 1] empty_session).
  apply votes_unique_nil.
Defined.

(** X5.  Under a finite effective limit [limit] that stays the same, a run
    of calls never brings any user's vote count in any poll above the larger
    of 0 and [limit], if no count was above it at the start. *)
Theorem cast_requests_within_limit (VL : VoteLimit)
    (vote_limit game_count limit : Z) (qs : list CastRequest)
    (s s' : AsyncSession) (rs : list VoteResult) :
  calculate_effective_limit VL vote_limit game_count = Some limit ->
  (forall poll user, vote_count s poll user <= Z.max 0 limit) ->
  cast_requests VL vote_limit game_count qs s = Ok (rs, s') ->
  forall poll user, vote_count s' poll user <= Z.max 0 limit.
Proof.
  intros Hlimit. revert s rs. induction qs as [|q qs IH];
    intros s rs Hbound; simpl.
  - by intros [= _ <-].
  - unfold bind, cast_request.
    destruct (cast_vote VL (req_poll q) (req_user q) (req_target q)
                (req_kind q) (req_name q) vote_limit game_count s)
      as [[r s1]|] eqn:Hcast; [|done].
    destruct (cast_requests VL vote_limit game_count qs s1)
      as [[rs1 s2]|] eqn:Hrun; [|done].
    intros [= _ <-]. apply (IH s1 rs1); [|done].
    intros poll user.
    destruct (cast_vote_inv _ _ _ _ _ _ _ _ _ _ _ Hcast)
      as [(_ & _ & -> & Hroom)|[(_ & L & _ & _ & _ & ->)|(v & _ & _ & ->)]].
    + rewrite vote_count_app. simpl.
      destruct (bool_decide (req_poll q = poll)) eqn:Hp,
        (bool_decide (req_user q = user)) eqn:Hu; simpl;
        try (specialize (Hbound poll user); lia).
      apply bool_decide_eq_true in Hp, Hu. subst poll user.
      specialize (Hroom limit Hlimit). lia.
    + apply Hbound.
    + etrans; [apply vote_count_remove_le|apply Hbound].
Qed.

Lemma cast_requests_within_limit_witness :
  vote_count (session_of [mkvote 1 GAME 1]) "poll" 1 <= Z.max 0 1.
Proof.
  apply (cast_requests_within_limit demo_limits 1 10 1
           [mkrequest 1 GAME 1; mkrequest 1 GAME 2]
           empty_session (session_of [mkvote 1 GAME 1])
           [vote_added GAME 1; limit_reached 1 1]).
  - reflexivity.
  - intros poll user. vm_compute. discriminate.
  - reflexivity.
Defined.

(** X6.  With the UNLIMITED setting no call is refused: from a table that
    satisfies the uniqueness invariant, every call of a run succeeds (as an
    insertion or as a removal), whatever the number of votes. *)
Theorem cast_requests_unlimited (VL : VoteLimit) (game_count : Z)
    (qs : list CastRequest) (s : AsyncSession) :
  UNLIMITED VL <> AUTO VL ->
  votes_unique (poll_votes s) ->
  exists rs s',
    cast_requests VL (UNLIMITED VL) game_count qs s = Ok (rs, s')
    /\ Forall (fun r => success r = true) rs.
Proof.
  intros Hne. revert s. induction qs as [|q qs IH]; intros s Huniq; simpl.
  - by exists [], s.
  - destruct (cast_vote_unique_ok VL (req_poll q) (req_user q) (req_target q)
                (req_kind q) (req_name q) (UNLIMITED VL) game_count s Huniq)
      as (r & s1 & Hcast).
    pose proof (cast_vote_keeps_unique _ _ _ _ _ _ _ _ _ _ _ Huniq Hcast)
      as Huniq1.
    destruct (IH s1 Huniq1) as (rs & s' & Hrun & Hall).
    exists (r :: rs), s'. unfold bind, cast_request. rewrite Hcast, Hrun.
    split; [done|]. constructor; [|done].
    destruct (cast_vote_inv _ _ _ _ _ _ _ _ _ _ _ Hcast)
      as [(_ & -> & _)|[(_ & L & HL & _)|(v & _ & -> & _)]]; try done.
    unfold calculate_effective_limit in HL.
    destruct (Z.eqb_spec (UNLIMITED VL) (AUTO VL)); [done|].
    by rewrite Z.eqb_refl in HL.
Qed.

Lemma cast_requests_unlimited_witness :
  exists rs s',
    cast_requests demo_limits (UNLIMITED demo_limits) 1
      [mkrequest 1 GAME 1; mkrequest 1 CATEGORY 2] empty_session
    = Ok (rs, s')
    /\ Forall (fun r => success r = true) rs.
Proof.
  apply (cast_requests_unlimited demo_limits 1
           [mkrequest 1 GAME 1; mkrequest 1 CATEGORY 2] empty_session).
  - simpl. lia.
  - apply votes_unique_nil.
Defined.

(** X7.  With the AUTO setting a user with fewer than three votes in the
    poll can always add a vote that is not there yet, whatever the candidate
    count. *)
Theorem cast_vote_auto_first_three (VL : VoteLimit) (poll : string)
    (user target : Z) (kind : VoteType) (uname : string) (game_count : Z)
    (s : AsyncSession) :
  matching_votes s poll user target kind = [] ->
  vote_count s poll user < 3 ->
  cast_vote VL poll user target kind uname (AUTO VL) game_count s
  = Ok ({| success := true;
           message := match kind with
                      | CATEGORY => category_message target
                      | GAME => "Vote recorded"
                      end;
           is_removal := false |},
        with_poll_votes s
          (poll_votes s ++ [new_vote poll user target kind uname])).
Proof.
  intros Hnone Hfew. rewrite cast_vote_eq, Hnone. simpl.
  destruct (auto_limit_at_least_3 VL game_count) as (a & -> & Ha).
  by destruct (Z.leb_spec a (vote_count s poll user)); [lia|].
Qed.

Lemma cast_vote_auto_first_three_witness :
  cast_vote demo_limits "poll" 1 3 GAME "user" (AUTO demo_limits) 1
    (session_of [mkvote 1 GAME 1; mkvote 1 CATEGORY 1])
  = Ok ({| success := true; message := "Vote recorded"; is_removal := false |},
        session_of [mkvote 1 GAME 1; mkvote 1 CATEGORY 1; mkvote 1 GAME 3]).
Proof.
  apply (cast_vote_auto_first_three demo_limits "poll" 1 3 GAME "user" 1
           (session_of [mkvote 1 GAME 1; mkvote 1 CATEGORY 1])).
  - reflexivity.
  - vm_compute. reflexivity.
Defined.




(** ** Casting and reading back *)

Lemma get_votes_for_poll_eq (poll : string) (s : AsyncSession) :
  get_votes_for_poll poll s = Ok (votes_of_poll s poll, s).
Proof. reflexivity. Qed.

(** X9.  What [get_votes_for_poll] returns after a call of [cast_vote]: for
    the poll of the call, the earlier rows with the new vote at the end after
    an insertion, without the matching row after a removal, and unchanged
    after a refusal; for any other poll, the rows it returned before. *)
Theorem get_votes_after_cast (VL : VoteLimit) (poll : string)
    (user target : Z) (kind : VoteType) (uname : string)
    (vote_limit game_count : Z) (s s' : AsyncSession) (r : VoteResult) :
  cast_vote VL poll user target kind uname vote_limit game_count s
    = Ok (r, s') ->
  (exists rows',
      get_votes_for_poll poll s' = Ok (rows', s')
      /\ if is_removal r then
           exists v, matching_votes s poll user target kind = [v]
             /\ rows' = remove_row v (votes_of_poll s poll)
         else if success r then
           rows' = votes_of_poll s poll
                     ++ [new_vote poll user target kind uname]
         else rows' = votes_of_poll s poll)
  /\ forall poll', poll' <> poll ->
       get_votes_for_poll poll' s' = Ok (votes_of_poll s poll', s').
Proof.
  intros Hcast. setoid_rewrite get_votes_for_poll_eq.
  destruct (cast_vote_inv _ _ _ _ _ _ _ _ _ _ _ Hcast)
    as [(_ & -> & -> & _)|[(_ & L & _ & _ & -> & ->)|(v & Hm & -> & ->)]].
  - split.
    + eexists. split; [reflexivity|]. simpl. unfold votes_of_poll. simpl.
      rewrite List.filter_app. simpl. by rewrite bool_decide_eq_true_2.
    + intros poll' Hne. do 2 f_equal. unfold votes_of_poll. simpl.
      rewrite List.filter_app. simpl.
      rewrite bool_decide_eq_false_2 by done. by rewrite app_nil_r.
  - split; [by eexists|done].
  - assert (Hv : v ∈ matching_votes s poll user target kind)
      by (rewrite Hm; apply list_elem_of_here).
    apply matching_vote_row in Hv as (_ & _ & Hpoll & _).
    split.
    + eexists. split; [reflexivity|]. simpl. exists v. split; [done|].
      unfold votes_of_poll. simpl. apply filter_remove_row_true.
      by rewrite bool_decide_eq_true_2.
    + intros poll' Hne. do 2 f_equal. unfold votes_of_poll. simpl.
      apply filter_remove_row_false.
      rewrite bool_decide_eq_false_2; [done|congruence].
Qed.

Lemma get_votes_after_cast_witness :
  (exists rows',
      get_votes_for_poll "poll" (session_of [mkvote 2 GAME 1; mkvote 1 GAME 1])
      = Ok (rows', session_of [mkvote 2 GAME 1; mkvote 1 GAME 1])
      /\ rows' = votes_of_poll (session_of [mkvote 2 GAME 1]) "poll"
                   ++ [new_vote "poll" 1 1 GAME "user"])
  /\ forall poll', poll' <> "poll" ->
       get_votes_for_poll poll' (session_of [mkvote 2 GAME 1; mkvote 1 GAME 1])
       = Ok (votes_of_poll (session_of [mkvote 2 GAME 1]) poll',
             session_of [mkvote 2 GAME 1; mkvote 1 GAME 1]).
Proof.
  apply (get_votes_after_cast demo_limits "poll" 1 1 GAME "user" 3 10
           (session_of [mkvote 2 GAME 1])
           (session_of [mkvote 2 GAME 1; mkvote 1 GAME 1])
           (vote_added GAME 1)).
  reflexivity.
Defined.

(** ** Category resolver: order, draws and determinism *)

(** The result of [resolve_category_votes], vote by vote. *)
Lemma resolve_category_votes_per_vote (votes : list PollVote)
    (games : list Game) (r : Random) :
  exists cr r',
    resolve_category_votes votes games r
    = Ok (flat_map (resolved_of cr) votes, r')
    /\ (forall level g, cr !! level = Some g ->
          g ∈ games /\ level = Some (complexity g))
    /\ forall v, v ∈ votes ->
         resolved_of cr v
         = if resolves games v then
             [{| rv_game_id := match vote_type v with
                               | GAME => game_id v
                               | CATEGORY => id <$> cr !! category_level v
                               end;
                 rv_user_id := user_id v |}]
           else [].
Proof.
  destruct (resolve_category_votes_spec votes games r)
    as (cr & r' & _ & Hrun & Hcand & Hhas & _).
  exists cr, r'. split; [done|]. split; [done|].
  intros v Hv. unfold resolved_of, resolves.
  destruct (vote_type v) eqn:Hkind; [done|].
  destruct (level_has_game games (category_level v)) eqn:Hlevel.
  - by destruct (Hhas v Hv Hkind Hlevel) as [g ->].
  - destruct (cr !! category_level v) as [g|] eqn:Hcr; [|done].
    destruct (Hcand _ _ Hcr) as [Hg Hl].
    assert (level_has_game games (category_level v) = true); [|congruence].
    unfold level_has_game. apply existsb_exists. exists g.
    by rewrite <- list_elem_of_In, bool_decide_eq_true.
Qed.

(** X10.  The resolved votes keep the voters and their order: the users of
    the result are the users of the votes that resolve (the GAME votes and
    the CATEGORY votes whose level has a candidate game), in the order of the
    votes, whatever the random draws. *)
Theorem resolved_votes_keep_voters (votes : list PollVote)
    (games : list Game) (r : Random) :
  exists out r',
    resolve_category_votes votes games r = Ok (out, r')
    /\ rv_user_id <$> out
       = user_id <$> List.filter (resolves games) votes.
Proof.
  destruct (resolve_category_votes_per_vote votes games r)
    as (cr & r' & Hrun & _ & Hone).
  exists (flat_map (resolved_of cr) votes), r'. split; [done|].
  clear Hrun. induction votes as [|v votes IH]; [done|]. simpl.
  rewrite fmap_app, IH.
  - rewrite (Hone v) by apply list_elem_of_here.
    by destruct (resolves games v).
  - intros w Hw. apply Hone. by apply list_elem_of_further.
Qed.

(** X11.  Without CATEGORY votes the votes pass through one for one, in
    order, and the generator is left as it was: nothing is drawn. *)
Theorem game_votes_pass_through (votes : list PollVote) (games : list Game)
    (r : Random) :
  (forall v, v ∈ votes -> vote_type v = GAME) ->
  resolve_category_votes votes games r = Ok (pass_through <$> votes, r).
Proof.
  intros Hgame. unfold resolve_category_votes, resolve_categories, bind.
  assert (Hloop : forall cr,
    for_each votes (choose_resolution (group_games_by_complexity games)) cr r
    = Ok (cr, r)).
  { induction votes as [|v votes IH]; intros cr; simpl; [done|].
    unfold bind, choose_resolution.
    rewrite (Hgame v) by apply list_elem_of_here. simpl.
    apply IH. intros w Hw. by apply Hgame, list_elem_of_further. }
  rewrite Hloop, append_loop. simpl. do 2 f_equal. clear Hloop.
  induction votes as [|v votes IH]; [done|]. simpl.
  rewrite IH by (intros w Hw; by apply Hgame, list_elem_of_further).
  unfold resolved_of. by rewrite (Hgame v) by apply list_elem_of_here.
Qed.

Lemma game_votes_pass_through_witness :
  resolve_category_votes [mkvote 1 GAME 1; mkvote 2 GAME 99] [catan]
    (constant_draws 4)
  = Ok (pass_through <$> [mkvote 1 GAME 1; mkvote 2 GAME 99],
        constant_draws 4).
Proof.
  apply (game_votes_pass_through [mkvote 1 GAME 1; mkvote 2 GAME 99] [catan]
           (constant_draws 4)).
  intros v Hv.
  apply elem_of_cons in Hv as [->|Hv]; [reflexivity|].
  apply list_elem_of_singleton in Hv as ->. reflexivity.
Defined.

(** A step of the first loop keeps the dictionary or adds the level of a
    CATEGORY vote. *)
Lemma choose_resolution_inv (groups : gmap Z (list Game))
    (cr cr1 : gmap (option Z) Game) (v : PollVote) (r r1 : Random) :
  choose_resolution groups cr v r = Ok (cr1, r1) ->
  cr1 = cr
  \/ (vote_type v = CATEGORY
      /\ exists g, cr1 = <[category_level v := g]> cr).
Proof.
  unfold choose_resolution. destruct (vote_type v); [intros [= <- _]; by left|].
  destruct (cr !! category_level v); [intros [= <- _]; by left|].
  destruct (groups_get groups (category_level v)) as [|g0 rest];
    [intros [= <- _]; by left|].
  unfold bind. destruct (random_choice (g0 :: rest) r) as [[g r2]|]; [|done].
  intros [= <- _]. right. split; [done|]. by exists g.
Qed.

(** The first loop adds entries only for levels of CATEGORY votes. *)
Lemma resolve_loop_keys (groups : gmap Z (list Game)) (votes : list PollVote)
    (cr cr' : gmap (option Z) Game) (r r' : Random) (level : option Z) :
  for_each votes (choose_resolution groups) cr r = Ok (cr', r') ->
  is_Some (cr' !! level) ->
  is_Some (cr !! level)
  \/ exists v, v ∈ votes /\ vote_type v = CATEGORY
       /\ category_level v = level.
Proof.
  revert cr r. induction votes as [|v votes IH]; intros cr r; simpl.
  - intros [= <- _]. by left.
  - unfold bind.
    destruct (choose_resolution groups cr v r) as [[cr1 r1]|] eqn:Hstep;
      [|done].
    intros Hrun Hsome. destruct (IH cr1 r1 Hrun Hsome) as [Hin|(w & Hw & ?)].
    + destruct (choose_resolution_inv _ _ _ _ _ _ Hstep)
        as [->|(Hkind & g & ->)]; [by left|].
      destruct (decide (category_level v = level)) as [Heq|Hne].
      * right. exists v. split; [apply list_elem_of_here|done].
      * left. by rewrite lookup_insert_ne in Hin.
    + right. exists w. split; [by apply list_elem_of_further|done].
Qed.

(** X12.  One draw per level: [resolve_category_votes] takes exactly as
    many draws as there are distinct levels that some CATEGORY vote names
    and that have a candidate game, however many votes name them. *)
Theorem resolve_draws_once_per_level (votes : list PollVote)
    (games : list Game) (r : Random) :
  exists out r',
    resolve_category_votes votes games r = Ok (out, r')
    /\ draws r' = draws r
    /\ cursor r'
       = (cursor r
          + size (list_to_set
                    (category_level <$>
                       List.filter
                         (fun v => bool_decide (vote_type v = CATEGORY)
                                   && level_has_game games (category_level v))
                         votes) : gset (option Z)))%nat.
Proof.
  destruct (resolve_category_votes_spec votes games r)
    as (cr & r' & Hcr & Hrun & Hcand & Hhas & Hdraws & Hcursor).
  exists (flat_map (resolved_of cr) votes), r'.
  split; [done|]. split; [done|]. rewrite Hcursor. f_equal.
  rewrite <- size_dom. f_equal. apply set_eq. intros level.
  rewrite elem_of_dom, elem_of_list_to_set, list_elem_of_fmap. split.
  - intros Hsome.
    destruct (resolve_loop_keys _ _ _ _ _ _ level Hcr Hsome)
      as [[g Hg]|(v & Hv & Hkind & Hlevel)];
      [by rewrite lookup_empty in Hg|].
    exists v. split; [done|]. apply elem_of_filter_bool. split; [done|].
    rewrite bool_decide_eq_true_2 by done. simpl. rewrite Hlevel.
    destruct Hsome as [g Hg]. destruct (Hcand _ _ Hg) as [Hin ->].
    unfold level_has_game. apply existsb_exists. exists g.
    by rewrite <- list_elem_of_In, bool_decide_eq_true.
  - intros (v & -> & [Hv [Hkind Hlevel]%andb_true_iff]%elem_of_filter_bool).
    apply bool_decide_eq_true in Hkind. by apply Hhas.
Qed.

(** X13.  A level whose candidate games all have one identifier (a level
    with a single game, say) resolves to it whatever the draws: every
    CATEGORY vote for the level becomes a vote for that game. *)
Theorem single_game_level_resolves (votes : list PollVote)
    (games : list Game) (g : Game) (r : Random) :
  g ∈ games ->
  (forall g', g' ∈ games -> complexity g' = complexity g -> id g' = id g) ->
  exists out r' cr,
    resolve_category_votes votes games r = Ok (out, r')
    /\ out = flat_map (resolved_of cr) votes
    /\ forall v, v ∈ votes -> vote_type v = CATEGORY ->
         category_level v = Some (complexity g) ->
         resolved_of cr v
         = [{| rv_game_id := Some (id g); rv_user_id := user_id v |}].
Proof.
  intros Hg Hsame.
  destruct (resolve_category_votes_per_vote votes games r)
    as (cr & r' & Hrun & Hcand & Hone).
  exists (flat_map (resolved_of cr) votes), r', cr.
  split; [done|]. split; [done|].
  intros v Hv Hkind Hlevel. rewrite (Hone v Hv). unfold resolves.
  rewrite Hkind, Hlevel.
  assert (Hhas : level_has_game games (Some (complexity g)) = true).
  { unfold level_has_game. apply existsb_exists. exists g.
    by rewrite <- list_elem_of_In, bool_decide_eq_true. }
  rewrite Hhas.
  assert (Hres : resolved_of cr v <> []).
  { rewrite (Hone v Hv). unfold resolves. by rewrite Hkind, Hlevel, Hhas. }
  unfold resolved_of in Hres. rewrite Hkind, Hlevel in Hres.
  destruct (cr !! Some (complexity g)) as [g'|] eqn:Hcr; [|done].
  destruct (Hcand _ _ Hcr) as [Hg' [= Hl]]. simpl.
  by rewrite (Hsame g' Hg').
Qed.

Lemma single_game_level_resolves_witness :
  exists out r' cr,
    resolve_category_votes [mkvote 2 CATEGORY 3] [catan; wingspan; gloomhaven]
      (constant_draws 7) = Ok (out, r')
    /\ out = flat_map (resolved_of cr) [mkvote 2 CATEGORY 3]
    /\ forall v, v ∈ [mkvote 2 CATEGORY 3] -> vote_type v = CATEGORY ->
         category_level v = Some (complexity gloomhaven) ->
         resolved_of cr v
         = [{| rv_game_id := Some (id gloomhaven); rv_user_id := user_id v |}].
Proof.
  apply (single_game_level_resolves [mkvote 2 CATEGORY 3]
           [catan; wingspan; gloomhaven] gloomhaven (constant_draws 7)).
  - do 2 apply list_elem_of_further. apply list_elem_of_here.
  - intros g' Hg' Hlevel.
    apply elem_of_cons in Hg' as [->|Hg']; [discriminate|].
    apply elem_of_cons in Hg' as [->|Hg']; [discriminate|].
    apply list_elem_of_singleton in Hg' as ->. reflexivity.
Defined.

(** ** Star collections and poll closing *)

(** [build_star_collections] returns the fold of its loop body and leaves
    the session as it was. *)
Lemma build_star_collections_eq (games : list Game) (priority_ids : gset Z)
    (s : AsyncSession) :
  build_star_collections games priority_ids s
  = Ok (star_map s games priority_ids, s).
Proof.
  unfold build_star_collections, star_map. generalize (∅ : gmap Z (list Z)).
  induction games as [|g games IH]; intros acc; simpl; [done|].
  unfold bind. destruct (bool_decide (id g ∈ priority_ids)); simpl; apply IH.
Qed.

(** X14.  [build_star_collections] never raises and leaves the session as
    it was.  Its map has an entry exactly for the identifiers that are in
    the priority set and belong to a candidate game, and the entry lists the
    users whose collection row for the game is starred, in table order;
    games outside the priority set get no entry, even when starred. *)
Theorem build_star_collections_lookup (games : list Game)
    (priority_ids : gset Z) (s : AsyncSession) :
  exists m,
    build_star_collections games priority_ids s = Ok (m, s)
    /\ forall g : Z,
         m !! g
         = if bool_decide (g ∈ priority_ids) && bool_decide (g ∈ id <$> games)
           then Some (starred_by s g) else None.
Proof.
  exists (star_map s games priority_ids).
  split; [apply build_star_collections_eq|].
  intros g. unfold star_map.
  assert (Hgen : forall acc : gmap Z (list Z),
    foldl (fun m g0 => if bool_decide (id g0 ∈ priority_ids)
                       then <[id g0 := starred_by s (id g0)]> m else m)
          acc games !! g
    = if bool_decide (g ∈ priority_ids) && bool_decide (g ∈ id <$> games)
      then Some (starred_by s g) else acc !! g).
  { induction games as [|a games IH]; intros acc; simpl.
    - by rewrite andb_false_r.
    - rewrite IH.
      destruct (decide (g ∈ priority_ids)) as [Hp|Hp];
        [rewrite (bool_decide_eq_true_2 _ Hp)
        |rewrite (bool_decide_eq_false_2 _ Hp)]; simpl.
      + destruct (decide (g ∈ id <$> games)) as [Hg|Hg].
        * rewrite (bool_decide_eq_true_2 _ Hg).
          by rewrite bool_decide_eq_true_2 by (by apply list_elem_of_further).
        * rewrite (bool_decide_eq_false_2 _ Hg).
          destruct (decide (g = id a)) as [->|Hne].
          -- rewrite (bool_decide_eq_true_2 _ Hp).
             rewrite bool_decide_eq_true_2 by apply list_elem_of_here.
             by rewrite lookup_insert_eq.
          -- rewrite (bool_decide_eq_false_2 (g ∈ _ :: _))
               by (intros [?|?]%elem_of_cons; done).
             destruct (bool_decide (id a ∈ priority_ids)); [|done].
             by rewrite lookup_insert_ne.
      + destruct (bool_decide (id a ∈ priority_ids)) eqn:Ha; [|done].
        apply bool_decide_eq_true in Ha.
        rewrite lookup_insert_ne; [done|]. intros Heq. apply Hp.
        by rewrite <- Heq. }
  rewrite Hgen. by rewrite lookup_empty.
Qed.

(** [close_poll] in one step, given the resolved votes of the poll. *)
Lemma close_poll_run (bonus_policy : Q -> list Z -> Z -> Q * string)
    (poll : string) (chat : Z) (games : list Game) (priority_ids : gset Z)
    (s : AsyncSession) (r r' : Random) (resolved : list ResolvedVote) :
  resolve_category_votes (votes_of_poll s poll) games r = Ok (resolved, r') ->
  close_poll bonus_policy poll chat games priority_ids (s, r)
  = Ok (calculate_poll_winner bonus_policy games resolved priority_ids
          (weighted_for s chat)
          (if weighted_for s chat
           then Some (star_map s games priority_ids) else None),
        (s, r')).
Proof.
  intros Hrun.
  unfold close_poll, bind, with_session, with_random, session_get.
  rewrite get_votes_for_poll_eq. simpl. rewrite Hrun. simpl.
  fold (weighted_for s chat). destruct (weighted_for s chat).
  - unfold bind, with_session. simpl. rewrite build_star_collections_eq.
    reflexivity.
  - reflexivity.
Qed.

(** X15.  A chat without a session row closes its polls as a chat whose
    row has [settings_weighted] off: the result and the draws are the same,
    and neither close raises. *)
Theorem close_poll_missing_session
    (bonus_policy : Q -> list Z -> Z -> Q * string) (poll : string)
    (chat : Z) (games : list Game) (priority_ids : gset Z)
    (s : AsyncSession) (r : Random) :
  sessions s !! chat = None ->
  let s_off :=
    with_sessions s (<[chat := {| settings_weighted := false |}]> (sessions s))
  in
  exists result r',
    close_poll bonus_policy poll chat games priority_ids (s, r)
    = Ok (result, (s, r'))
    /\ close_poll bonus_policy poll chat games priority_ids (s_off, r)
       = Ok (result, (s_off, r')).
Proof.
  intros Hnone s_off.
  destruct (resolve_category_votes_spec (votes_of_poll s poll) games r)
    as (cr & r' & _ & Hrun & _).
  assert (Hw : weighted_for s chat = false)
    by (unfold weighted_for; by rewrite Hnone).
  assert (Hw_off : weighted_for s_off chat = false)
    by (unfold weighted_for, s_off; simpl; by rewrite lookup_insert_eq).
  eexists _, r'.
  rewrite (close_poll_run _ _ _ _ _ s r r' _ Hrun).
  rewrite (close_poll_run _ _ _ _ _ s_off r r' _ Hrun).
  by rewrite Hw, Hw_off.
Qed.

Lemma close_poll_missing_session_witness :
  exists result r',
    close_poll (fun raw _ _ => (raw, "")) "poll" 7 [catan; gloomhaven] ∅
      (session_of [mkvote 1 GAME 1], constant_draws 0)
    = Ok (result, (session_of [mkvote 1 GAME 1], r'))
    /\ close_poll (fun raw _ _ => (raw, "")) "poll" 7 [catan; gloomhaven] ∅
         (with_sessions (session_of [mkvote 1 GAME 1])
            (<[7 := {| settings_weighted := false |}]>
               (sessions (session_of [mkvote 1 GAME 1]))),
          constant_draws 0)
       = Ok (result,
             (with_sessions (session_of [mkvote 1 GAME 1])
                (<[7 := {| settings_weighted := false |}]>
                   (sessions (session_of [mkvote 1 GAME 1]))), r')).
Proof.
  apply (close_poll_missing_session (fun raw _ _ => (raw, "")) "poll" 7
           [catan; gloomhaven] ∅ (session_of [mkvote 1 GAME 1])
           (constant_draws 0)).
  reflexivity.
Defined.

(** X16.  What a close depends on: two sessions that hold the same votes
    for the poll and the same weighted setting for the chat (and, when it
    is on, the same collection table) close the poll with the same result
    and the same draws.  Votes of other polls, rows of other chats, and the
    collection table of an unweighted chat play no part. *)
Theorem close_poll_depends_on
    (bonus_policy : Q -> list Z -> Z -> Q * string) (poll : string)
    (chat : Z) (games : list Game) (priority_ids : gset Z)
    (s1 s2 : AsyncSession) (r : Random) :
  votes_of_poll s1 poll = votes_of_poll s2 poll ->
  weighted_for s1 chat = weighted_for s2 chat ->
  (weighted_for s1 chat = true -> collections s1 = collections s2) ->
  exists result r',
    close_poll bonus_policy poll chat games priority_ids (s1, r)
    = Ok (result, (s1, r'))
    /\ close_poll bonus_policy poll chat games priority_ids (s2, r)
       = Ok (result, (s2, r')).
Proof.
  intros Hvotes Hweighted Hcollections.
  destruct (resolve_category_votes_spec (votes_of_poll s1 poll) games r)
    as (cr & r' & _ & Hrun1 & _).
  pose proof Hrun1 as Hrun2. rewrite Hvotes in Hrun2 at 1.
  eexists _, r'.
  rewrite (close_poll_run _ _ _ _ _ s1 r r' _ Hrun1).
  rewrite (close_poll_run _ _ _ _ _ s2 r r' _ Hrun2).
  rewrite <- Hweighted. split; [reflexivity|].
  destruct (weighted_for s1 chat); [|done].
  unfold star_map, starred_by. by rewrite (Hcollections eq_refl).
Qed.

Lemma close_poll_depends_on_witness :
  exists result r',
    close_poll (fun raw _ _ => (raw, "")) "poll" 7 [catan; gloomhaven] ∅
      (session_of [mkvote 1 GAME 1], constant_draws 0)
    = Ok (result, (session_of [mkvote 1 GAME 1], r'))
    /\ close_poll (fun raw _ _ => (raw, "")) "poll" 7 [catan; gloomhaven] ∅
         (session_of [mkvote 1 GAME 1; new_vote "other" 2 3 GAME "user"],
          constant_draws 0)
       = Ok (result,
             (session_of [mkvote 1 GAME 1; new_vote "other" 2 3 GAME "user"],
              r')).
Proof.
  apply (close_poll_depends_on (fun raw _ _ => (raw, "")) "poll" 7
           [catan; gloomhaven] ∅ (session_of [mkvote 1 GAME 1])
           (session_of [mkvote 1 GAME 1; new_vote "other" 2 3 GAME "user"])
           (constant_draws 0)).
  - reflexivity.
  - reflexivity.
  - intros _. reflexivity.
Defined.

(** ** The AUTO limit by candidate count *)


Example auto_limit_threshold_values :
  calculate_effective_limit demo_limits (AUTO demo_limits) 16 = Some 4
  /\ calculate_effective_limit demo_limits (AUTO demo_limits) 17 = Some 5
  /\ calculate_effective_limit demo_limits (AUTO demo_limits) 32 = Some 5
  /\ calculate_effective_limit demo_limits (AUTO demo_limits) 33 = Some 6.
Proof. repeat split; reflexivity. Qed.

(** ** One more GAME vote *)

Lemma for_each_app {St A B} (l1 l2 : list A) (body : B -> A -> M St B)
    (acc : B) (s : St) :
  for_each (l1 ++ l2) body acc s
  = bind (for_each l1 body acc) (fun acc' => for_each l2 body acc') s.
Proof.
  revert acc s. induction l1 as [|x l1 IH]; intros acc s; simpl; [done|].
  unfold bind. destruct (body acc x s) as [[acc1 s1]|]; [|reflexivity].
  apply IH.
Qed.

(** X18.  A GAME vote added at the end of the votes adds its resolved vote
    at the end of the result and changes nothing else: the other resolved
    votes, the games chosen for the categories and the draws taken are the
    same. *)
Theorem resolve_one_more_game_vote (votes : list PollVote) (v : PollVote)
    (games : list Game) (r r' : Random) (out : list ResolvedVote) :
  vote_type v = GAME ->
  resolve_category_votes votes games r = Ok (out, r') ->
  resolve_category_votes (votes ++ [v]) games r
  = Ok (out ++ [{| rv_game_id := game_id v; rv_user_id := user_id v |}], r').
Proof.
  intros Hkind. unfold resolve_category_votes, resolve_categories.
  unfold bind. rewrite for_each_app. unfold bind.
  destruct (for_each votes _ ∅ r) as [[cr r1]|]; [|done].
  rewrite append_loop. intros [= <- <-]. simpl.
  unfold bind, choose_resolution. rewrite Hkind. simpl.
  rewrite append_loop, flat_map_app. simpl.
  unfold resolved_of at 2. rewrite Hkind. by rewrite app_nil_r.
Qed.

Lemma resolve_one_more_game_vote_witness :
  resolve_category_votes
    ([mkvote 2 CATEGORY 1; mkvote 3 CATEGORY 1] ++ [mkvote 1 GAME 3])
    [catan; wingspan; gloomhaven] (constant_draws 5)
  = Ok ([{| rv_game_id := Some 2; rv_user_id := 2 |};
         {| rv_game_id := Some 2; rv_user_id := 3 |}]
          ++ [{| rv_game_id := game_id (mkvote 1 GAME 3);
                 rv_user_id := user_id (mkvote 1 GAME 3) |}],
        {| draws := draws (constant_draws 5); cursor := 1 |}).
Proof.
  apply (resolve_one_more_game_vote
           [mkvote 2 CATEGORY 1; mkvote 3 CATEGORY 1] (mkvote 1 GAME 3)
           [catan; wingspan; gloomhaven] (constant_draws 5)).
  - reflexivity.
  - reflexivity.
Defined.
